(** * The user-mark tile index of the drape frontend

    A shallow embedding of [df::UserMarkGenerator]
    (drape_frontend/user_mark_generator.cpp): the per-group mark and line
    collections, the visibility set, the two-level index
    tile -> group -> (mark positions, line positions), the operations that
    rebuild it and the generation of render data for one tile. *)

From stdpp Require Import gmap list sorting fin_maps fin_sets.
From Stdlib Require Import ZArith NArith Lia.

(** ** Data model *)

(** [GroupID] is [uint32_t]; only equality and order are used on it. *)
Abbreviation GroupID := N (only parsing).

(** [static_cast<uint32_t>(i)] of a [size_t] loop counter. *)
Definition static_cast_uint32 (i : nat) : N := (N.of_nat i mod 2 ^ 32)%N.

(** [IndexesCollection]: the positions of one group's marks and lines that
    fall into one tile. *)
Record IndexesCollection := mkIndexes {
  m_markIndexes : list N;
  m_lineIndexes : list N
}.

#[global] Instance IndexesCollection_eq_dec : EqDecision IndexesCollection.
Proof. solve_decision. Defined.

(** [make_unique_dp<IndexesCollection>()] *)
Definition new_IndexesCollection : IndexesCollection := mkIndexes [] [].

(** [itGroupIndexes->second->m_markIndexes.clear()] *)
Definition clear_markIndexes (e : IndexesCollection) : IndexesCollection :=
  mkIndexes [] (m_lineIndexes e).

(** [itGroupIndexes->second->m_lineIndexes.clear()] *)
Definition clear_lineIndexes (e : IndexesCollection) : IndexesCollection :=
  mkIndexes (m_markIndexes e) [].

(** [groupIndexes->m_markIndexes.push_back(i)] *)
Definition push_markIndex (i : N) (e : IndexesCollection) : IndexesCollection :=
  mkIndexes (m_markIndexes e ++ [i]) (m_lineIndexes e).

(** [groupIndexes->m_lineIndexes.push_back(i)] *)
Definition push_lineIndex (i : N) (e : IndexesCollection) : IndexesCollection :=
  mkIndexes (m_markIndexes e) (m_lineIndexes e ++ [i]).

(** [m_markIndexes.empty() && m_lineIndexes.empty()] *)
Definition indexes_empty (e : IndexesCollection) : Prop :=
  m_markIndexes e = [] ∧ m_lineIndexes e = [].

#[global] Instance indexes_empty_dec e : Decision (indexes_empty e).
Proof. unfold indexes_empty. apply _. Defined.

(** [std::map::insert]: the pair is stored only when the key is absent. *)
Definition std_map_insert `{Countable K} {A} (k : K) (v : A) (m : gmap K A) : gmap K A :=
  match m !! k with
  | Some _ => m
  | None => <[k := v]> m
  end.

(** Result of running the constructor. *)
Inductive Construction (A : Type) : Type :=
  | Constructed (a : A)
  | AssertionFailed.
Arguments Constructed {A} a.
Arguments AssertionFailed {A}.

(** Result of a call that dereferences owned pointers; [w] is the state of
    the flush sink when the call returns. [Done]: every pointer it
    dereferenced held an object, and [st] is the generator after the call.
    [NullDereference]: the call bound a reference to the object of a null
    [drape_ptr] and went on with it; the generator then holds that null
    pointer, which is no state of this model. *)
Inductive Outcome (S W : Type) : Type :=
  | Done (st : S) (w : W)
  | NullDereference (w : W).
Arguments Done {S W} st w.
Arguments NullDereference {S W} w.

Definition outcome_world {S W} (o : Outcome S W) : W :=
  match o with
  | Done _ w => w
  | NullDereference w => w
  end.

(** The call returns with every reference it bound referring to an object. *)
Definition returns {S W} (o : Outcome S W) : Prop :=
  match o with
  | Done _ _ => True
  | NullDereference _ => False
  end.

(** The call dereferenced a null pointer. *)
Definition dereferences_null {S W} (o : Outcome S W) : Prop :=
  match o with
  | Done _ _ => False
  | NullDereference _ => True
  end.

(** A later step of a call that has dereferenced a null pointer. *)
Definition after_null {S W} (o : Outcome S W) : Outcome S W :=
  NullDereference (outcome_world o).

#[global] Instance returns_dec {S W} (o : Outcome S W) : Decision (returns o).
Proof. destruct o; simpl; apply _. Defined.

#[global] Instance dereferences_null_dec {S W} (o : Outcome S W) :
  Decision (dereferences_null o).
Proof. destruct o; simpl; apply _. Defined.

(** Modelled from the spec: the [ASSERT] macro of base/assert.hpp, which is
    not part of this translation unit. A failed assertion is fatal: the
    enclosing call does not proceed; where it proceeds, the condition holds. *)
Definition ASSERT (condition : Prop) `{!Decision condition} : Construction condition :=
  match decide condition with
  | left holds => Constructed holds
  | right _ => AssertionFailed
  end.

Section Generator.
(** [TileKey] has equality and an order (it is the key of [std::map] and
    [std::set]); the tile of a point, the upper scale and the geometry
    cache are declared outside this translation unit. *)
Context {TileKey : Type} `{Countable TileKey}.
Context {PointD UserMarkRenderParams UserLineRenderParams : Type}.
Context {TextureManager TUserMarksRenderData : Type}.
Variable m_pivot : UserMarkRenderParams → PointD.
Variable m_points : UserLineRenderParams → list PointD.
Variable GetTileKeyByPoint : PointD → Z → TileKey.
Variable GetUpperScale : Z.
(** [CacheUserMarks] takes the mark collection by reference; [None] is the
    reference that [GenerateUserMarksGeometry] binds to a null pointer. *)
Variable CacheUserMarks :
  TileKey → TextureManager → option (list UserMarkRenderParams) → list N →
  TUserMarksRenderData.

Abbreviation UserMarksRenderCollection := (list UserMarkRenderParams).
Abbreviation UserLinesRenderCollection := (list UserLineRenderParams).
Abbreviation MarkIndexesGroups := (gmap GroupID IndexesCollection).
Abbreviation MarksIndex := (gmap TileKey (gmap GroupID IndexesCollection)).

(** The flush sink: a callback acting on the caller's world [World]. *)
Definition TFlushFn (World : Type) : Type :=
  GroupID → TUserMarksRenderData → World → World.

Record UserMarkGenerator (World : Type) := mkGenerator {
  m_flushFn : TFlushFn World;
  m_marks : gmap GroupID UserMarksRenderCollection;
  m_lines : gmap GroupID UserLinesRenderCollection;
  m_groupsVisibility : gset GroupID;
  m_marksIndex : MarksIndex
}.
Arguments mkGenerator {World}.
Arguments m_flushFn {World}.
Arguments m_marks {World}.
Arguments m_lines {World}.
Arguments m_groupsVisibility {World}.
Arguments m_marksIndex {World}.

(** The zoom levels of [for (zoomLevel = 1; zoomLevel <= GetUpperScale(); ++zoomLevel)]. *)
Definition zoomLevels : list Z := Z.of_nat <$> seq 1 (Z.to_nat GetUpperScale).

(** *** The index *)

(** [GetIndexesCollection]: finds the entry of [(tileKey, groupId)],
    creating the tile's group map and the entry when they are missing.
    The returned [ref_ptr] designates the entry at that path; writes
    through it are [update_IndexesCollection]. *)
Definition GetIndexesCollection (tileKey : TileKey) (groupId : GroupID)
    (index : MarksIndex) : MarksIndex :=
  let tileGroups : MarkIndexesGroups :=
    match index !! tileKey with
    | None => ∅
    | Some tileGroups => tileGroups
    end in
  let tileGroups' :=
    match tileGroups !! groupId with
    | None => <[groupId := new_IndexesCollection]> tileGroups
    | Some _ => tileGroups
    end in
  <[tileKey := tileGroups']> index.

Definition update_IndexesCollection (tileKey : TileKey) (groupId : GroupID)
    (f : IndexesCollection → IndexesCollection) (index : MarksIndex) : MarksIndex :=
  alter (alter f groupId) tileKey index.

(** Body of the innermost loop of [UpdateMarksIndex]. *)
Definition add_markIndex (tileKey : TileKey) (groupId : GroupID) (markIndex : nat)
    (index : MarksIndex) : MarksIndex :=
  update_IndexesCollection tileKey groupId
    (push_markIndex (static_cast_uint32 markIndex))
    (GetIndexesCollection tileKey groupId index).

(** Body of the loop over [tiles] in [UpdateLinesIndex]. *)
Definition add_lineIndex (groupId : GroupID) (lineIndex : nat)
    (index : MarksIndex) (tileKey : TileKey) : MarksIndex :=
  update_IndexesCollection tileKey groupId
    (push_lineIndex (static_cast_uint32 lineIndex))
    (GetIndexesCollection tileKey groupId index).

(** [CleanIndex]: first the tiles whose group map is empty are erased,
    then, in the tiles that remain, the groups whose two lists are empty. *)
Definition CleanIndex (index : MarksIndex) : MarksIndex :=
  let index1 : MarksIndex :=
    filter (λ tileIt : TileKey * MarkIndexesGroups, tileIt.2 ≠ ∅) index in
  (λ tileGroups : MarkIndexesGroups,
     filter (λ groupIt : GroupID * IndexesCollection, ¬ indexes_empty groupIt.2)
            tileGroups) <$> index1.

(** First loop of [UpdateMarksIndex]. *)
Definition clear_group_markIndexes (groupId : GroupID) (index : MarksIndex) : MarksIndex :=
  alter clear_markIndexes groupId <$> index.

(** First loop of [UpdateLinesIndex]. *)
Definition clear_group_lineIndexes (groupId : GroupID) (index : MarksIndex) : MarksIndex :=
  alter clear_lineIndexes groupId <$> index.

(** The loops over [markIndex] and [zoomLevel]; [markIndex] is the
    position of the head of [marks] in the collection. *)
Fixpoint index_marks (groupId : GroupID) (markIndex : nat)
    (marks : UserMarksRenderCollection) (index : MarksIndex) : MarksIndex :=
  match marks with
  | [] => index
  | mark :: rest =>
      index_marks groupId (S markIndex) rest
        (foldl (λ index zoomLevel,
                  add_markIndex (GetTileKeyByPoint (m_pivot mark) zoomLevel)
                                groupId markIndex index)
               index zoomLevels)
  end.

(** [std::set<TileKey> tiles] of one line at one zoom level. *)
Definition line_tiles (line : UserLineRenderParams) (zoomLevel : Z) : gset TileKey :=
  list_to_set ((λ p, GetTileKeyByPoint p zoomLevel) <$> m_points line).

(** The loops over [lineIndex] and [zoomLevel]. The tiles of the set are
    visited in the order of [elements]; each tile is visited once and a
    visit touches that tile's entry only. *)
Fixpoint index_lines (groupId : GroupID) (lineIndex : nat)
    (lines : UserLinesRenderCollection) (index : MarksIndex) : MarksIndex :=
  match lines with
  | [] => index
  | line :: rest =>
      index_lines groupId (S lineIndex) rest
        (foldl (λ index zoomLevel,
                  foldl (add_lineIndex groupId lineIndex) index
                        (elements (line_tiles line zoomLevel)))
               index zoomLevels)
  end.

Section Operations.
Context {World : Type}.
Abbreviation Generator := (UserMarkGenerator World).

Definition with_marks (st : Generator) m : Generator :=
  mkGenerator (m_flushFn st) m (m_lines st) (m_groupsVisibility st) (m_marksIndex st).
Definition with_lines (st : Generator) l : Generator :=
  mkGenerator (m_flushFn st) (m_marks st) l (m_groupsVisibility st) (m_marksIndex st).
Definition with_visibility (st : Generator) v : Generator :=
  mkGenerator (m_flushFn st) (m_marks st) (m_lines st) v (m_marksIndex st).
Definition with_index (st : Generator) i : Generator :=
  mkGenerator (m_flushFn st) (m_marks st) (m_lines st) (m_groupsVisibility st) i.

(** The constructor: [m_flushFn(flushFn)], then
    [ASSERT(m_flushFn != nullptr, ())]. [flushFn] is [None] for an empty
    [std::function]; whether construction proceeds is left to [ASSERT],
    and the generator holds the target of the sink that passed it. *)
Definition UserMarkGenerator_new (flushFn : option (TFlushFn World))
    : Construction Generator :=
  match ASSERT (is_Some flushFn) with
  | Constructed nonnull => Constructed (mkGenerator (is_Some_proj nonnull) ∅ ∅ ∅ ∅)
  | AssertionFailed => AssertionFailed
  end.

Definition UpdateMarksIndex (groupId : GroupID) (st : Generator) : Generator :=
  let index := clear_group_markIndexes groupId (m_marksIndex st) in
  match m_marks st !! groupId with
  | None => with_index st index
  | Some marks => with_index st (CleanIndex (index_marks groupId 0 marks index))
  end.

Definition UpdateLinesIndex (groupId : GroupID) (st : Generator) : Generator :=
  let index := clear_group_lineIndexes groupId (m_marksIndex st) in
  match m_lines st !! groupId with
  | None => with_index st index
  | Some lines => with_index st (CleanIndex (index_lines groupId 0 lines index))
  end.

Definition ClearUserMarks (groupId : GroupID) (st : Generator) : Generator :=
  let st := with_visibility st (m_groupsVisibility st ∖ {[groupId]}) in
  let st := with_marks st (delete groupId (m_marks st)) in
  let st := with_lines st (delete groupId (m_lines st)) in
  UpdateLinesIndex groupId (UpdateMarksIndex groupId st).

Definition SetUserMarks (groupId : GroupID) (marks : UserMarksRenderCollection)
    (st : Generator) : Generator :=
  UpdateMarksIndex groupId
    (with_marks st (std_map_insert groupId marks (m_marks st))).

Definition SetUserLines (groupId : GroupID) (lines : UserLinesRenderCollection)
    (st : Generator) : Generator :=
  UpdateLinesIndex groupId
    (with_lines st (std_map_insert groupId lines (m_lines st))).

Definition SetGroupVisibility (groupId : GroupID) (isVisible : bool)
    (st : Generator) : Generator :=
  if isVisible
  then with_visibility st ({[groupId]} ∪ m_groupsVisibility st)
  else with_visibility st (m_groupsVisibility st ∖ {[groupId]}).

(** Modelled from the spec: the container types of the index are declared
    in user_mark_generator.hpp, which is not part of this translation
    unit; the groups of a tile are delivered in ascending order of group
    id. This is the order of [for (auto & groupPair : indexesGroups)]. *)
Definition ordered_groups {A} (indexesGroups : gmap GroupID A) : list (GroupID * A) :=
  omap (λ groupId, pair groupId <$> indexesGroups !! groupId)
       (merge_sort N.le (elements (dom indexesGroups))).

(** The loop of [GenerateUserMarksGeometry]. [*m_marks[groupId]] is read
    first and without a check: for a group without mark collection
    [operator[]] stores a null pointer and [renderParams] is bound to its
    object. The loop goes on either way: a group that is not visible is
    skipped, for a visible one the geometry is cached from [renderParams]
    and handed to the sink. The keys of [groups] differ, so the stored null
    pointer is not read again by the loop. *)
Fixpoint generate_groups (st : Generator) (tileKey : TileKey)
    (textures : TextureManager) (groups : list (GroupID * IndexesCollection))
    (w : World) : Outcome Generator World :=
  match groups with
  | [] => Done st w
  | groupPair :: rest =>
      let groupId := groupPair.1 in
      let renderParams := m_marks st !! groupId in
      let indexes := m_markIndexes groupPair.2 in
      let continue (w : World) :=
        match renderParams with
        | Some _ => generate_groups st tileKey textures rest w
        | None => after_null (generate_groups st tileKey textures rest w)
        end in
      if decide (groupId ∉ m_groupsVisibility st)
      then continue w
      else
        let renderData := CacheUserMarks tileKey textures renderParams indexes in
        continue (m_flushFn st groupId renderData w)
  end.

Definition GenerateUserMarksGeometry (tileKey : TileKey) (textures : TextureManager)
    (st : Generator) (w : World) : Outcome Generator World :=
  match m_marksIndex st !! tileKey with
  | None => Done st w
  | Some indexesGroups =>
      generate_groups st tileKey textures (ordered_groups indexesGroups) w
  end.

(** The mutating calls of the public interface, and sequences of them. *)
Inductive Mutation : Type :=
  | Clear (groupId : GroupID)
  | ReplaceMarks (groupId : GroupID) (marks : UserMarksRenderCollection)
  | ReplaceLines (groupId : GroupID) (lines : UserLinesRenderCollection)
  | SetVisibility (groupId : GroupID) (isVisible : bool).

Definition mutate (st : Generator) (op : Mutation) : Generator :=
  match op with
  | Clear g => ClearUserMarks g st
  | ReplaceMarks g marks => SetUserMarks g marks st
  | ReplaceLines g lines => SetUserLines g lines st
  | SetVisibility g b => SetGroupVisibility g b st
  end.

Definition run (ops : list Mutation) (st : Generator) : Generator :=
  foldl mutate st ops.

End Operations.

(** The same generator with a sink that records its calls. *)
Definition SinkCall : Type := GroupID * TUserMarksRenderData.

Definition recording_sink : TFlushFn (list SinkCall) :=
  λ groupId renderData calls, calls ++ [(groupId, renderData)].

Definition record_sink {World} (st : UserMarkGenerator World)
    : UserMarkGenerator (list SinkCall) :=
  mkGenerator recording_sink (m_marks st) (m_lines st) (m_groupsVisibility st)
              (m_marksIndex st).

(** The sink calls of one [GenerateUserMarksGeometry], in order. *)
Definition sink_calls {World} (tileKey : TileKey) (textures : TextureManager)
    (st : UserMarkGenerator World) : list SinkCall :=
  outcome_world (GenerateUserMarksGeometry tileKey textures (record_sink st) []).

(** The sink calls that deliver for one group. *)
Definition calls_for (groupId : GroupID) (calls : list SinkCall) : list SinkCall :=
  filter (λ call, call.1 = groupId) calls.

(** What a generation for a tile has to deliver, read off the state: for
    each visible group listed under the tile, in the order of the groups,
    the geometry cached from its mark collection and from the mark
    positions stored under the tile. *)
Definition deliveries {World} (tileKey : TileKey) (textures : TextureManager)
    (st : UserMarkGenerator World) : list SinkCall :=
  match m_marksIndex st !! tileKey with
  | None => []
  | Some indexesGroups =>
      (λ groupPair : GroupID * IndexesCollection,
         (groupPair.1,
          CacheUserMarks tileKey textures (m_marks st !! groupPair.1)
                         (m_markIndexes groupPair.2)))
        <$> filter (λ groupPair : GroupID * IndexesCollection,
                      groupPair.1 ∈ m_groupsVisibility st)
                   (ordered_groups indexesGroups)
  end.

(** Applying a sink to a list of calls, in order. *)
Definition replay {World} (flushFn : TFlushFn World) (w : World)
    (calls : list SinkCall) : World :=
  foldl (λ w call, flushFn call.1 call.2 w) w calls.

(** ** Reading the index *)

(** The entry of a (tile, group) pair, when the index has one. *)
Definition entry_at (index : MarksIndex) (tileKey : TileKey) (groupId : GroupID)
    : option IndexesCollection :=
  index !! tileKey ≫= (λ tileGroups : MarkIndexesGroups, tileGroups !! groupId).

Definition markIndexes_at (index : MarksIndex) (tileKey : TileKey) (groupId : GroupID)
    : list N :=
  from_option m_markIndexes [] (entry_at index tileKey groupId).

Definition lineIndexes_at (index : MarksIndex) (tileKey : TileKey) (groupId : GroupID)
    : list N :=
  from_option m_lineIndexes [] (entry_at index tileKey groupId).

(** The mark positions of the index, without the line positions. *)
Definition mark_positions (index : MarksIndex) : gmap TileKey (gmap GroupID (list N)) :=
  (λ tileGroups : MarkIndexesGroups, m_markIndexes <$> tileGroups) <$> index.

(** The positions that the rebuild loops append to one tile: the position
    of each element, once per zoom level at which the element hits the tile. *)
Fixpoint tile_positions {A} (hit : A → Z → Prop) `{!∀ a z, Decision (hit a z)}
    (i : nat) (l : list A) : list N :=
  match l with
  | [] => []
  | a :: rest =>
      ((λ _, static_cast_uint32 i) <$> filter (hit a) zoomLevels)
        ++ tile_positions hit (S i) rest
  end.

(** A mark hits the tile of its pivot; a line hits the tiles of its points. *)
Definition mark_hits (tileKey : TileKey) (mark : UserMarkRenderParams) (zoomLevel : Z) : Prop :=
  GetTileKeyByPoint (m_pivot mark) zoomLevel = tileKey.

Definition line_hits (tileKey : TileKey) (line : UserLineRenderParams) (zoomLevel : Z) : Prop :=
  tileKey ∈ line_tiles line zoomLevel.

#[global] Instance mark_hits_dec t mark z : Decision (mark_hits t mark z).
Proof. unfold mark_hits. apply _. Defined.

#[global] Instance line_hits_dec t line z : Decision (line_hits t line z).
Proof. unfold line_hits. apply _. Defined.

(** ** The index under the elementary updates *)

Lemma filter_none {A} (P : A → Prop) `{!∀ x, Decision (P x)} (l : list A) :
  (∀ x, x ∈ l → ¬ P x) → filter P l = [].
Proof.
  induction l as [|x l IH]; intros Hl; [done|].
  rewrite filter_cons_False by (apply Hl; by left).
  apply IH. intros y Hy. apply Hl. by right.
Qed.

Lemma zoomLevels_spec (z : Z) : z ∈ zoomLevels ↔ (1 ≤ z ≤ GetUpperScale)%Z.
Proof.
  unfold zoomLevels. rewrite list_elem_of_fmap. split.
  - intros (k & -> & Hk). apply elem_of_seq in Hk. lia.
  - intros Hz. exists (Z.to_nat z). split; [lia|]. apply elem_of_seq. lia.
Qed.

Lemma NoDup_zoomLevels : NoDup zoomLevels.
Proof.
  unfold zoomLevels. apply NoDup_fmap_2; [|apply NoDup_seq].
  intros a b. lia.
Qed.

Lemma static_cast_uint32_small (i : nat) :
  (N.of_nat i < 2 ^ 32)%N → static_cast_uint32 i = N.of_nat i.
Proof. intros Hi. unfold static_cast_uint32. by apply N.mod_small. Qed.

Lemma entry_at_update (t : TileKey) (g : GroupID) f (index : MarksIndex) t' g' :
  entry_at (update_IndexesCollection t g f (GetIndexesCollection t g index)) t' g' =
  if decide (t' = t ∧ g' = g)
  then Some (f (default new_IndexesCollection (entry_at index t g)))
  else entry_at index t' g'.
Proof.
  unfold entry_at, update_IndexesCollection, GetIndexesCollection.
  destruct (decide (t' = t)) as [->|Ht].
  - rewrite lookup_alter_eq, lookup_insert_eq. simpl.
    destruct (decide (g' = g)) as [->|Hg].
    + rewrite decide_True by done. rewrite lookup_alter_eq.
      destruct (index !! t) as [tg|] eqn:Et; simpl.
      * destruct (tg !! g) as [e|] eqn:Eg; simpl; [by rewrite Eg|].
        by rewrite lookup_insert_eq.
      * by rewrite lookup_empty, lookup_insert_eq.
    + rewrite decide_False by (intros [? ?]; done). rewrite lookup_alter_ne by done.
      destruct (index !! t) as [tg|] eqn:Et; simpl.
      * destruct (tg !! g) as [e|] eqn:Eg; simpl; [done|].
        by rewrite lookup_insert_ne.
      * rewrite lookup_empty. by rewrite lookup_insert_ne.
  - rewrite decide_False by (intros [? ?]; done).
    rewrite lookup_alter_ne by done. by rewrite lookup_insert_ne.
Qed.

Lemma markIndexes_at_add_mark t g i (index : MarksIndex) t' g' :
  markIndexes_at (add_markIndex t g i index) t' g' =
  markIndexes_at index t' g' ++
    (if decide (t' = t ∧ g' = g) then [static_cast_uint32 i] else []).
Proof.
  unfold markIndexes_at, add_markIndex. rewrite entry_at_update.
  case_decide as Hd; [|by rewrite app_nil_r].
  destruct Hd as [-> ->]. by destruct (entry_at index t g).
Qed.

Lemma lineIndexes_at_add_mark t g i (index : MarksIndex) t' g' :
  lineIndexes_at (add_markIndex t g i index) t' g' = lineIndexes_at index t' g'.
Proof.
  unfold lineIndexes_at, add_markIndex. rewrite entry_at_update.
  case_decide as Hd; [|done].
  destruct Hd as [-> ->]. by destruct (entry_at index t g).
Qed.

Lemma lineIndexes_at_add_line t g j (index : MarksIndex) t' g' :
  lineIndexes_at (add_lineIndex g j index t) t' g' =
  lineIndexes_at index t' g' ++
    (if decide (t' = t ∧ g' = g) then [static_cast_uint32 j] else []).
Proof.
  unfold lineIndexes_at, add_lineIndex. rewrite entry_at_update.
  case_decide as Hd; [|by rewrite app_nil_r].
  destruct Hd as [-> ->]. by destruct (entry_at index t g).
Qed.

Lemma markIndexes_at_add_line t g j (index : MarksIndex) t' g' :
  markIndexes_at (add_lineIndex g j index t) t' g' = markIndexes_at index t' g'.
Proof.
  unfold markIndexes_at, add_lineIndex. rewrite entry_at_update.
  case_decide as Hd; [|done].
  destruct Hd as [-> ->]. by destruct (entry_at index t g).
Qed.

(** [CleanIndex] keeps exactly the entries that have a position. *)
Lemma entry_at_CleanIndex (index : MarksIndex) t g :
  entry_at (CleanIndex index) t g =
  entry_at index t g ≫= (λ e, if decide (indexes_empty e) then None else Some e).
Proof.
  unfold entry_at, CleanIndex. rewrite lookup_fmap.
  rewrite map_lookup_filter.
  destruct (index !! t) as [tg|] eqn:Et; simpl; [|done].
  case_guard as Hne; simpl.
  - rewrite map_lookup_filter. destruct (tg !! g) as [e|]; simpl; [|done].
    case_guard; case_decide; simpl in *; done.
  - simpl in Hne. subst tg. by rewrite lookup_empty.
Qed.

Lemma markIndexes_at_CleanIndex (index : MarksIndex) t g :
  markIndexes_at (CleanIndex index) t g = markIndexes_at index t g.
Proof.
  unfold markIndexes_at. rewrite entry_at_CleanIndex.
  destruct (entry_at index t g) as [e|]; simpl; [|done].
  case_decide as He; simpl; [|done]. by destruct He as [-> _].
Qed.

Lemma lineIndexes_at_CleanIndex (index : MarksIndex) t g :
  lineIndexes_at (CleanIndex index) t g = lineIndexes_at index t g.
Proof.
  unfold lineIndexes_at. rewrite entry_at_CleanIndex.
  destruct (entry_at index t g) as [e|]; simpl; [|done].
  case_decide as He; simpl; [|done]. by destruct He as [_ ->].
Qed.

Lemma entry_at_clear_marks g (index : MarksIndex) t g' :
  entry_at (clear_group_markIndexes g index) t g' =
  (if decide (g' = g) then clear_markIndexes else id) <$> entry_at index t g'.
Proof.
  unfold entry_at, clear_group_markIndexes. rewrite lookup_fmap.
  destruct (index !! t) as [tg|]; simpl; [|done].
  rewrite lookup_alter. repeat case_decide; subst; try done.
  by rewrite option_fmap_id.
Qed.

Lemma entry_at_clear_lines g (index : MarksIndex) t g' :
  entry_at (clear_group_lineIndexes g index) t g' =
  (if decide (g' = g) then clear_lineIndexes else id) <$> entry_at index t g'.
Proof.
  unfold entry_at, clear_group_lineIndexes. rewrite lookup_fmap.
  destruct (index !! t) as [tg|]; simpl; [|done].
  rewrite lookup_alter. repeat case_decide; subst; try done.
  by rewrite option_fmap_id.
Qed.

Lemma markIndexes_at_clear_marks g (index : MarksIndex) t g' :
  markIndexes_at (clear_group_markIndexes g index) t g' =
  if decide (g' = g) then [] else markIndexes_at index t g'.
Proof.
  unfold markIndexes_at. rewrite entry_at_clear_marks.
  case_decide; by destruct (entry_at index t g').
Qed.

Lemma lineIndexes_at_clear_marks g (index : MarksIndex) t g' :
  lineIndexes_at (clear_group_markIndexes g index) t g' = lineIndexes_at index t g'.
Proof.
  unfold lineIndexes_at. rewrite entry_at_clear_marks.
  case_decide; by destruct (entry_at index t g').
Qed.

Lemma lineIndexes_at_clear_lines g (index : MarksIndex) t g' :
  lineIndexes_at (clear_group_lineIndexes g index) t g' =
  if decide (g' = g) then [] else lineIndexes_at index t g'.
Proof.
  unfold lineIndexes_at. rewrite entry_at_clear_lines.
  case_decide; by destruct (entry_at index t g').
Qed.

Lemma markIndexes_at_clear_lines g (index : MarksIndex) t g' :
  markIndexes_at (clear_group_lineIndexes g index) t g' = markIndexes_at index t g'.
Proof.
  unfold markIndexes_at. rewrite entry_at_clear_lines.
  case_decide; by destruct (entry_at index t g').
Qed.

(** ** The rebuild loops *)

Lemma markIndexes_at_zoom_loop g i (mark : UserMarkRenderParams) (zs : list Z)
    (index : MarksIndex) t g' :
  markIndexes_at
    (foldl (λ index zoomLevel,
              add_markIndex (GetTileKeyByPoint (m_pivot mark) zoomLevel) g i index)
           index zs) t g' =
  markIndexes_at index t g' ++
    (if decide (g' = g)
     then (λ _, static_cast_uint32 i) <$> filter (mark_hits t mark) zs
     else []).
Proof.
  revert index. induction zs as [|z zs IH]; intros index; simpl.
  - case_decide; by rewrite app_nil_r.
  - rewrite IH, markIndexes_at_add_mark, <- (assoc_L (++)). f_equal.
    rewrite filter_cons. unfold mark_hits at 2.
    destruct (decide (g' = g)) as [->|Hg].
    + destruct (decide (GetTileKeyByPoint (m_pivot mark) z = t)) as [Ht|Ht].
      * by rewrite decide_True by done.
      * by rewrite decide_False by (intros [? ?]; done).
    + by rewrite decide_False by (intros [? ?]; done).
Qed.

Lemma lineIndexes_at_zoom_loop_marks g i (mark : UserMarkRenderParams) (zs : list Z)
    (index : MarksIndex) t g' :
  lineIndexes_at
    (foldl (λ index zoomLevel,
              add_markIndex (GetTileKeyByPoint (m_pivot mark) zoomLevel) g i index)
           index zs) t g' =
  lineIndexes_at index t g'.
Proof.
  revert index. induction zs as [|z zs IH]; intros index; simpl; [done|].
  by rewrite IH, lineIndexes_at_add_mark.
Qed.

Lemma markIndexes_at_index_marks g k (marks : UserMarksRenderCollection)
    (index : MarksIndex) t g' :
  markIndexes_at (index_marks g k marks index) t g' =
  markIndexes_at index t g' ++
    (if decide (g' = g) then tile_positions (mark_hits t) k marks else []).
Proof.
  revert k index. induction marks as [|mark rest IH]; intros k index; simpl.
  - case_decide; by rewrite app_nil_r.
  - rewrite IH, markIndexes_at_zoom_loop, <- (assoc_L (++)).
    by case_decide.
Qed.

Lemma lineIndexes_at_index_marks g k (marks : UserMarksRenderCollection)
    (index : MarksIndex) t g' :
  lineIndexes_at (index_marks g k marks index) t g' = lineIndexes_at index t g'.
Proof.
  revert k index. induction marks as [|mark rest IH]; intros k index; simpl; [done|].
  by rewrite IH, lineIndexes_at_zoom_loop_marks.
Qed.

Lemma lineIndexes_at_tile_loop g j (ts : list TileKey) (index : MarksIndex) t g' :
  NoDup ts →
  lineIndexes_at (foldl (add_lineIndex g j) index ts) t g' =
  lineIndexes_at index t g' ++
    (if decide (g' = g ∧ t ∈ ts) then [static_cast_uint32 j] else []).
Proof.
  intros Hnd. revert index.
  induction Hnd as [|t0 ts Hnotin Hnd IH]; intros index; simpl.
  - rewrite decide_False; [by rewrite app_nil_r|].
    intros [_ Hin]. by apply elem_of_nil in Hin.
  - rewrite IH, lineIndexes_at_add_line, <- (assoc_L (++)). f_equal.
    destruct (decide (t = t0 ∧ g' = g)) as [[-> ->]|Hne].
    + rewrite decide_False by (intros [_ ?]; done).
      rewrite decide_True; [done|]. split; [done|]. apply elem_of_cons. by left.
    + simpl. destruct (decide (g' = g ∧ t ∈ ts)) as [[-> Hin]|Hn].
      * rewrite decide_True; [done|]. split; [done|]. apply elem_of_cons. by right.
      * rewrite decide_False; [done|].
        intros [-> [->|Hin]%elem_of_cons]; [by apply Hne|by apply Hn].
Qed.

Lemma markIndexes_at_tile_loop g j (ts : list TileKey) (index : MarksIndex) t g' :
  markIndexes_at (foldl (add_lineIndex g j) index ts) t g' = markIndexes_at index t g'.
Proof.
  revert index. induction ts as [|t0 ts IH]; intros index; simpl; [done|].
  by rewrite IH, markIndexes_at_add_line.
Qed.

Lemma lineIndexes_at_zoom_loop g j (line : UserLineRenderParams) (zs : list Z)
    (index : MarksIndex) t g' :
  lineIndexes_at
    (foldl (λ index zoomLevel,
              foldl (add_lineIndex g j) index (elements (line_tiles line zoomLevel)))
           index zs) t g' =
  lineIndexes_at index t g' ++
    (if decide (g' = g)
     then (λ _, static_cast_uint32 j) <$> filter (line_hits t line) zs
     else []).
Proof.
  revert index. induction zs as [|z zs IH]; intros index; simpl.
  - case_decide; by rewrite app_nil_r.
  - rewrite IH, lineIndexes_at_tile_loop by apply NoDup_elements.
    rewrite <- (assoc_L (++)). f_equal.
    rewrite filter_cons. unfold line_hits at 2.
    destruct (decide (g' = g)) as [->|Hg].
    + destruct (decide (t ∈ line_tiles line z)) as [Ht|Ht].
      * rewrite decide_True; [done|]. split; [done|]. by apply elem_of_elements.
      * rewrite decide_False; [done|]. intros [_ Hin]. by apply elem_of_elements in Hin.
    + by rewrite decide_False by (intros [? ?]; done).
Qed.

Lemma markIndexes_at_zoom_loop_lines g j (line : UserLineRenderParams) (zs : list Z)
    (index : MarksIndex) t g' :
  markIndexes_at
    (foldl (λ index zoomLevel,
              foldl (add_lineIndex g j) index (elements (line_tiles line zoomLevel)))
           index zs) t g' =
  markIndexes_at index t g'.
Proof.
  revert index. induction zs as [|z zs IH]; intros index; simpl; [done|].
  by rewrite IH, markIndexes_at_tile_loop.
Qed.

Lemma lineIndexes_at_index_lines g k (lines : UserLinesRenderCollection)
    (index : MarksIndex) t g' :
  lineIndexes_at (index_lines g k lines index) t g' =
  lineIndexes_at index t g' ++
    (if decide (g' = g) then tile_positions (line_hits t) k lines else []).
Proof.
  revert k index. induction lines as [|line rest IH]; intros k index; simpl.
  - case_decide; by rewrite app_nil_r.
  - rewrite IH, lineIndexes_at_zoom_loop, <- (assoc_L (++)).
    by case_decide.
Qed.

Lemma markIndexes_at_index_lines g k (lines : UserLinesRenderCollection)
    (index : MarksIndex) t g' :
  markIndexes_at (index_lines g k lines index) t g' = markIndexes_at index t g'.
Proof.
  revert k index. induction lines as [|line rest IH]; intros k index; simpl; [done|].
  by rewrite IH, markIndexes_at_zoom_loop_lines.
Qed.

(** ** The appended positions *)

Section TilePositions.
Context {A : Type} (hit : A → Z → Prop) `{!∀ a z, Decision (hit a z)}.

Lemma elem_of_tile_positions (x : N) (k : nat) (l : list A) :
  x ∈ tile_positions hit k l ↔
  ∃ j a z, l !! j = Some a ∧ z ∈ zoomLevels ∧ hit a z ∧ x = static_cast_uint32 (k + j).
Proof.
  revert k. induction l as [|a l IH]; intros k; simpl.
  - split; [by intros ?%elem_of_nil|]. by intros (j & b & z & Hl & _).
  - rewrite elem_of_app, list_elem_of_fmap, IH. split.
    + intros [(z & -> & Hz)|(j & b & z & Hl & Hz & Hh & ->)].
      * apply list_elem_of_filter in Hz as [Hh Hz].
        exists 0, a, z. by rewrite Nat.add_0_r.
      * exists (S j), b, z. repeat split; try done. f_equal. lia.
    + intros (j & b & z & Hl & Hz & Hh & ->). destruct j as [|j]; simpl in Hl.
      * left. injection Hl as <-. exists z. rewrite Nat.add_0_r. split; [done|].
        by apply list_elem_of_filter.
      * right. exists j, b, z. repeat split; try done. f_equal. lia.
Qed.

Lemma tile_positions_lower_bound (x : N) (k : nat) (l : list A) :
  (N.of_nat (k + length l) ≤ 2 ^ 32)%N →
  x ∈ tile_positions hit k l → (N.of_nat k ≤ x)%N.
Proof.
  intros Hlen (j & a & z & Hl & _ & _ & ->)%elem_of_tile_positions.
  apply lookup_lt_Some in Hl.
  rewrite static_cast_uint32_small by lia. lia.
Qed.

(** Positions are appended in ascending order of the collection. *)
Lemma tile_positions_sorted (k : nat) (l : list A) :
  (N.of_nat (k + length l) ≤ 2 ^ 32)%N →
  StronglySorted N.le (tile_positions hit k l).
Proof.
  revert k. induction l as [|a l IH]; intros k Hlen; simpl in *; [constructor|].
  assert (Hrest : ∀ x, x ∈ tile_positions hit (S k) l → (N.of_nat k ≤ x)%N).
  { intros x Hx. apply tile_positions_lower_bound in Hx; lia. }
  specialize (IH (S k) ltac:(lia)).
  induction (filter (hit a) zoomLevels) as [|z zs IHz]; simpl; [done|].
  constructor; [done|].
  apply Forall_forall. intros x [Hx|Hx]%elem_of_app.
  - apply list_elem_of_fmap in Hx as (? & -> & _). lia.
  - rewrite static_cast_uint32_small by lia. by apply Hrest.
Qed.

(** The position of an element occurs once per zoom level at which the
    element hits the tile. *)
Lemma tile_positions_count (k j : nat) (l : list A) (a : A) :
  (N.of_nat (k + length l) ≤ 2 ^ 32)%N →
  l !! j = Some a →
  length (filter (λ x, x = N.of_nat (k + j)) (tile_positions hit k l)) =
  length (filter (hit a) zoomLevels).
Proof.
  revert k j. induction l as [|b l IH]; intros k j Hlen Hl; simpl in *; [done|].
  rewrite filter_app, length_app.
  destruct j as [|j]; simpl in Hl.
  - injection Hl as ->. rewrite Nat.add_0_r.
    rewrite (filter_none _ (tile_positions hit (S k) l)).
    2:{ intros x Hx ->. apply tile_positions_lower_bound in Hx; lia. }
    rewrite Nat.add_0_r, static_cast_uint32_small by lia.
    clear IH. induction (filter (hit a) zoomLevels) as [|z zs IHz]; [done|].
    rewrite fmap_cons. rewrite filter_cons_True; [|reflexivity].
    simpl. by rewrite IHz.
  - rewrite <- (IH (S k) j) by (done || lia).
    replace (S k + j) with (k + S j) by lia.
    rewrite filter_none; [done|].
    intros x (? & -> & _)%list_elem_of_fmap.
    rewrite static_cast_uint32_small by lia. lia.
Qed.

End TilePositions.

(** ** Iteration over the groups of a tile *)

Lemma ordered_groups_keys {A} (m : gmap GroupID A) :
  (ordered_groups m).*1 = merge_sort N.le (elements (dom m)).
Proof.
  unfold ordered_groups.
  assert (Hin : ∀ k, k ∈ merge_sort N.le (elements (dom m)) → is_Some (m !! k)).
  { intros k Hk. rewrite merge_sort_Permutation in Hk.
    by apply elem_of_elements, elem_of_dom in Hk. }
  induction (merge_sort N.le (elements (dom m))) as [|k ks IH]; simpl; [done|].
  destruct (Hin k) as [a Ha]; [by left|]. rewrite Ha. simpl. f_equal.
  apply IH. intros k' Hk'. apply Hin. by right.
Qed.

Lemma NoDup_ordered_groups {A} (m : gmap GroupID A) : NoDup (ordered_groups m).*1.
Proof.
  rewrite ordered_groups_keys, merge_sort_Permutation. apply NoDup_elements.
Qed.

Lemma elem_of_ordered_groups {A} (m : gmap GroupID A) (g : GroupID) (a : A) :
  (g, a) ∈ ordered_groups m ↔ m !! g = Some a.
Proof.
  unfold ordered_groups. rewrite list_elem_of_omap. split.
  - intros (k & _ & Hk). destruct (m !! k) as [b|] eqn:E; simpl in Hk; [|done].
    by injection Hk as -> ->.
  - intros Hg. exists g. rewrite Hg. split; [|done].
    rewrite merge_sort_Permutation. by apply elem_of_elements, elem_of_dom.
Qed.

Lemma ordered_groups_fmap {A B} (f : A → B) (m : gmap GroupID A) :
  ordered_groups (f <$> m) = prod_map id f <$> ordered_groups m.
Proof.
  unfold ordered_groups. rewrite dom_fmap_L.
  induction (merge_sort N.le (elements (dom m))) as [|k ks IH]; csimpl; [done|].
  rewrite lookup_fmap, IH. by destruct (m !! k).
Qed.

(** ** Generation *)

Section Generation.
Context {World : Type}.
Implicit Types (st : UserMarkGenerator World) (w : World).

(** The sink calls of the loop; only the mark positions of the entries
    are read. *)
Fixpoint loop_calls (st : UserMarkGenerator World) (tileKey : TileKey)
    (textures : TextureManager) (groups : list (GroupID * list N)) : list SinkCall :=
  match groups with
  | [] => []
  | (groupId, indexes) :: rest =>
      if decide (groupId ∉ m_groupsVisibility st)
      then loop_calls st tileKey textures rest
      else (groupId,
            CacheUserMarks tileKey textures (m_marks st !! groupId) indexes)
             :: loop_calls st tileKey textures rest
  end.

Lemma generate_groups_world st t tex groups w :
  outcome_world (generate_groups st t tex groups w) =
  replay (m_flushFn st) w (loop_calls st t tex (prod_map id m_markIndexes <$> groups)).
Proof.
  revert w. induction groups as [|[g e] groups IH]; intros w; simpl; [done|].
  destruct (m_marks st !! g) as [rp|]; case_decide; simpl; by rewrite IH.
Qed.

Lemma generate_groups_returns st t tex groups w :
  returns (generate_groups st t tex groups w) ↔
  Forall (λ gp, is_Some (m_marks st !! gp.1)) groups.
Proof.
  revert w. induction groups as [|[g e] groups IH]; intros w; simpl.
  - split; [constructor|done].
  - rewrite Forall_cons. simpl. destruct (m_marks st !! g) as [rp|]; simpl.
    + case_decide; rewrite IH;
        (split; [intros ?; split; [by eexists|done] | by intros [_ ?]]).
    + case_decide; simpl; (split; [done|]; by intros [[? ?] _]).
Qed.

Lemma generate_groups_state st t tex groups w st' w' :
  generate_groups st t tex groups w = Done st' w' → st' = st.
Proof.
  revert w. induction groups as [|[g e] groups IH]; intros w; simpl.
  - by intros [= <- _].
  - destruct (m_marks st !! g) as [rp|]; case_decide; simpl; try done; apply IH.
Qed.

End Generation.

Lemma replay_recording (calls0 calls : list SinkCall) :
  replay recording_sink calls0 calls = calls0 ++ calls.
Proof.
  revert calls0. induction calls as [|c calls IH]; intros calls0; simpl.
  - by rewrite app_nil_r.
  - rewrite IH. unfold recording_sink. rewrite <- (assoc_L (++)). by destruct c.
Qed.

Lemma loop_calls_record_sink {World} (st : UserMarkGenerator World) t tex groups :
  loop_calls (record_sink st) t tex groups = loop_calls st t tex groups.
Proof. induction groups as [|[g e] groups IH]; simpl; [done|]. by rewrite IH. Qed.

(** The sink calls of a generation, read off the index. *)
Lemma sink_calls_eq {World} (st : UserMarkGenerator World) t tex :
  sink_calls t tex st =
  match m_marksIndex st !! t with
  | None => []
  | Some indexesGroups =>
      loop_calls st t tex (ordered_groups (m_markIndexes <$> indexesGroups))
  end.
Proof.
  unfold sink_calls, GenerateUserMarksGeometry. simpl.
  destruct (m_marksIndex st !! t) as [groups|]; simpl; [|done].
  rewrite generate_groups_world, replay_recording, loop_calls_record_sink. simpl.
  by rewrite ordered_groups_fmap.
Qed.

(** Every generation delivers through the stored sink, in the order of [sink_calls]. *)
Lemma Generate_world {World} (st : UserMarkGenerator World) t tex w :
  outcome_world (GenerateUserMarksGeometry t tex st w) =
  replay (m_flushFn st) w (sink_calls t tex st).
Proof.
  rewrite sink_calls_eq. unfold GenerateUserMarksGeometry.
  destruct (m_marksIndex st !! t) as [groups|]; simpl; [|done].
  by rewrite generate_groups_world, ordered_groups_fmap.
Qed.

(** A generation returns without having dereferenced a null pointer exactly
    when every group listed under the tile has a mark collection. *)
Lemma Generate_returns {World} (st : UserMarkGenerator World) t tex w :
  returns (GenerateUserMarksGeometry t tex st w) ↔
  ∀ g, is_Some (entry_at (m_marksIndex st) t g) → is_Some (m_marks st !! g).
Proof.
  unfold GenerateUserMarksGeometry, entry_at.
  destruct (m_marksIndex st !! t) as [groups|]; simpl.
  - rewrite generate_groups_returns, Forall_forall. split.
    + intros Hall g [e He]. apply (Hall (g, e)). by apply elem_of_ordered_groups.
    + intros Hall [g e] Hin. simpl. apply Hall. exists e.
      by apply elem_of_ordered_groups.
  - split; [|done]. by intros _ g [? ?].
Qed.

Lemma Generate_state {World} (st : UserMarkGenerator World) t tex w st' w' :
  GenerateUserMarksGeometry t tex st w = Done st' w' → st' = st.
Proof.
  unfold GenerateUserMarksGeometry.
  destruct (m_marksIndex st !! t) as [groups|]; [apply generate_groups_state|].
  by intros [= <- _].
Qed.

Lemma generate_groups_dereferences_null {World} (st : UserMarkGenerator World)
    t tex groups w :
  dereferences_null (generate_groups st t tex groups w) ↔
  Exists (λ gp, m_marks st !! gp.1 = None) groups.
Proof.
  revert w. induction groups as [|[g e] groups IH]; intros w; simpl.
  - split; [done|]. by intros ?%Exists_nil.
  - rewrite Exists_cons. simpl. destruct (m_marks st !! g) as [rp|]; simpl.
    + case_decide; rewrite IH; (split; [by right|by intros [?|?]]).
    + case_decide; simpl; (split; [by left|done]).
Qed.

(** A generation dereferences a null pointer exactly when the tile lists
    a group without mark collection. *)
Lemma Generate_dereferences_null {World} (st : UserMarkGenerator World) t tex w :
  dereferences_null (GenerateUserMarksGeometry t tex st w) ↔
  ∃ g, is_Some (entry_at (m_marksIndex st) t g) ∧ m_marks st !! g = None.
Proof.
  unfold GenerateUserMarksGeometry, entry_at.
  destruct (m_marksIndex st !! t) as [groups|]; simpl.
  - rewrite generate_groups_dereferences_null, Exists_exists. split.
    + intros ([g e] & Hin%elem_of_ordered_groups & Hg). exists g. split; [|done].
      by exists e.
    + intros (g & [e He] & Hg). exists (g, e). split; [|done].
      by apply elem_of_ordered_groups.
  - split; [done|]. by intros (g & [? ?] & _).
Qed.

(** The sink calls of a generation are the deliveries read off the state. *)
Lemma sink_calls_deliveries {World} (st : UserMarkGenerator World) t tex :
  sink_calls t tex st = deliveries t tex st.
Proof.
  rewrite sink_calls_eq. unfold deliveries.
  destruct (m_marksIndex st !! t) as [groups|]; [|done].
  rewrite ordered_groups_fmap.
  induction (ordered_groups groups) as [|[g e] l IH]; [done|].
  rewrite fmap_cons, filter_cons. cbn [loop_calls prod_map id fst snd].
  destruct (decide (g ∈ m_groupsVisibility st)) as [Hv|Hv].
  - rewrite decide_False by (intros Hn; by apply Hn).
    rewrite fmap_cons. cbn [fst snd]. by rewrite IH.
  - by rewrite decide_True by done.
Qed.

(** ** The sink calls for one group *)

Section SinkCalls.
Context {World : Type}.
Implicit Types (st : UserMarkGenerator World).

Lemma calls_for_cons g (c : SinkCall) calls :
  calls_for g (c :: calls) =
  if decide (c.1 = g) then c :: calls_for g calls else calls_for g calls.
Proof. unfold calls_for. by rewrite filter_cons. Qed.

Lemma loop_calls_for_not_listed st t tex groups g :
  g ∉ groups.*1 → calls_for g (loop_calls st t tex groups) = [].
Proof.
  induction groups as [|[h idxs] groups IH]; simpl; intros Hg; [done|].
  apply not_elem_of_cons in Hg as [Hne Hg].
  case_decide; [by apply IH|].
  rewrite calls_for_cons. simpl. rewrite decide_False by done. by apply IH.
Qed.

Lemma loop_calls_for_invisible st t tex groups g :
  g ∉ m_groupsVisibility st → calls_for g (loop_calls st t tex groups) = [].
Proof.
  intros Hg. induction groups as [|[h idxs] groups IH]; simpl; [done|].
  case_decide as Hh; [done|].
  rewrite calls_for_cons. simpl. rewrite decide_False; [done|].
  intros ->. done.
Qed.

Lemma loop_calls_for_visible st t tex groups g idxs :
  NoDup groups.*1 →
  (g, idxs) ∈ groups →
  g ∈ m_groupsVisibility st →
  calls_for g (loop_calls st t tex groups) =
  [(g, CacheUserMarks t tex (m_marks st !! g) idxs)].
Proof.
  intros Hnd Hin Hv.
  induction groups as [|[h idxs'] groups IH]; simpl in *.
  - by apply elem_of_nil in Hin.
  - apply NoDup_cons in Hnd as [Hh Hnd].
    apply elem_of_cons in Hin as [[= <- <-]|Hin].
    + rewrite decide_False by (intros Hn; by apply Hn).
      rewrite calls_for_cons. simpl. rewrite decide_True by done.
      by rewrite loop_calls_for_not_listed by done.
    + assert (h ≠ g) as Hne.
      { intros ->. apply Hh. apply list_elem_of_fmap. by exists (g, idxs). }
      case_decide; [by apply IH|].
      rewrite calls_for_cons. simpl. rewrite decide_False by done. by apply IH.
Qed.

(** The loop reads the mark collections and the visibility set only. *)
Lemma loop_calls_other_groups {World'} st (st' : UserMarkGenerator World') t tex groups g :
  m_marks st' = m_marks st →
  (∀ h, h ≠ g → h ∈ m_groupsVisibility st' ↔ h ∈ m_groupsVisibility st) →
  filter (λ c : SinkCall, c.1 ≠ g) (loop_calls st' t tex groups) =
  filter (λ c : SinkCall, c.1 ≠ g) (loop_calls st t tex groups).
Proof.
  intros Hm Hv. induction groups as [|[h idxs] groups IH]; simpl; [done|].
  rewrite Hm.
  destruct (decide (h = g)) as [->|Hne].
  - repeat case_decide; rewrite ?filter_cons_False by (simpl; intros Hn; by apply Hn);
      apply IH.
  - specialize (Hv h Hne).
    destruct (decide (h ∈ m_groupsVisibility st)) as [Hin|Hnin].
    + rewrite !decide_False by (intros Hn; apply Hn; tauto).
      rewrite !filter_cons_True by done. by rewrite IH.
    + rewrite !decide_True by tauto. apply IH.
Qed.

Lemma loop_calls_ext {World'} st (st' : UserMarkGenerator World') t tex groups :
  m_marks st' = m_marks st →
  m_groupsVisibility st' = m_groupsVisibility st →
  loop_calls st' t tex groups = loop_calls st t tex groups.
Proof.
  intros Hm Hv. induction groups as [|[h idxs] groups IH]; simpl; [done|].
  by rewrite Hm, Hv, IH.
Qed.

Lemma sink_calls_for_visible st t tex g e :
  entry_at (m_marksIndex st) t g = Some e →
  g ∈ m_groupsVisibility st →
  calls_for g (sink_calls t tex st) =
  [(g, CacheUserMarks t tex (m_marks st !! g) (m_markIndexes e))].
Proof.
  intros He Hv. rewrite sink_calls_eq. unfold entry_at in *.
  destruct (m_marksIndex st !! t) as [groups|]; simpl in *; [|done].
  apply loop_calls_for_visible; try done.
  - apply NoDup_ordered_groups.
  - apply elem_of_ordered_groups. by rewrite lookup_fmap, He.
Qed.

Lemma sink_calls_for_invisible st t tex g :
  g ∉ m_groupsVisibility st → calls_for g (sink_calls t tex st) = [].
Proof.
  intros Hv. rewrite sink_calls_eq.
  destruct (m_marksIndex st !! t); [by apply loop_calls_for_invisible|done].
Qed.

Lemma sink_calls_for_not_listed st t tex g :
  entry_at (m_marksIndex st) t g = None → calls_for g (sink_calls t tex st) = [].
Proof.
  intros He. rewrite sink_calls_eq. unfold entry_at in He.
  destruct (m_marksIndex st !! t) as [groups|]; simpl in *; [|done].
  apply loop_calls_for_not_listed. intros ([h idxs] & -> & Hin)%list_elem_of_fmap.
  apply elem_of_ordered_groups in Hin. rewrite lookup_fmap in Hin. simpl in *.
  by rewrite He in Hin.
Qed.

End SinkCalls.

(** ** The mutating operations *)

Ltac unfold_setters :=
  cbv beta zeta delta [with_index with_lines with_marks with_visibility] in *;
  cbn [m_flushFn m_marks m_lines m_groupsVisibility m_marksIndex] in *.

Section Mutations.
Context {World : Type}.
Implicit Types (st : UserMarkGenerator World).

Lemma std_map_insert_fresh {A} (m : gmap GroupID A) g a :
  m !! g = None → std_map_insert g a m !! g = Some a.
Proof. intros Hg. unfold std_map_insert. rewrite Hg. apply lookup_insert_eq. Qed.

(** [insert] leaves a stored collection in place. *)
Lemma std_map_insert_present {A} (m : gmap GroupID A) g a a' :
  m !! g = Some a → std_map_insert g a' m = m.
Proof. intros Hg. unfold std_map_insert. by rewrite Hg. Qed.

Lemma std_map_insert_ne {A} (m : gmap GroupID A) g h a :
  h ≠ g → std_map_insert g a m !! h = m !! h.
Proof.
  intros Hne. unfold std_map_insert. destruct (m !! g); [done|].
  by rewrite lookup_insert_ne.
Qed.

(** [ClearUserMarks] erases the group, empties its positions in every
    tile and returns from both index updates before [CleanIndex]. *)
Lemma ClearUserMarks_eq g st :
  ClearUserMarks g st =
  mkGenerator (m_flushFn st) (delete g (m_marks st)) (delete g (m_lines st))
    (m_groupsVisibility st ∖ {[g]})
    (clear_group_lineIndexes g (clear_group_markIndexes g (m_marksIndex st))).
Proof.
  unfold ClearUserMarks, UpdateLinesIndex, UpdateMarksIndex. unfold_setters.
  rewrite lookup_delete_eq. unfold_setters. by rewrite lookup_delete_eq.
Qed.

Lemma SetUserMarks_fresh g marks st :
  m_marks st !! g = None →
  SetUserMarks g marks st =
  mkGenerator (m_flushFn st) (<[g := marks]> (m_marks st)) (m_lines st)
    (m_groupsVisibility st)
    (CleanIndex (index_marks g 0 marks (clear_group_markIndexes g (m_marksIndex st)))).
Proof.
  intros Hg. unfold SetUserMarks, UpdateMarksIndex. unfold_setters.
  rewrite std_map_insert_fresh by done. unfold std_map_insert. by rewrite Hg.
Qed.

Lemma SetUserLines_fresh g lines st :
  m_lines st !! g = None →
  SetUserLines g lines st =
  mkGenerator (m_flushFn st) (m_marks st) (<[g := lines]> (m_lines st))
    (m_groupsVisibility st)
    (CleanIndex (index_lines g 0 lines (clear_group_lineIndexes g (m_marksIndex st)))).
Proof.
  intros Hg. unfold SetUserLines, UpdateLinesIndex. unfold_setters.
  rewrite std_map_insert_fresh by done. unfold std_map_insert. by rewrite Hg.
Qed.

(** A second [SetUserMarks] for a group rebuilds from the stored collection. *)
Lemma SetUserMarks_present g marks marks' st :
  m_marks st !! g = Some marks →
  SetUserMarks g marks' st =
  with_index st
    (CleanIndex (index_marks g 0 marks (clear_group_markIndexes g (m_marksIndex st)))).
Proof.
  intros Hg. unfold SetUserMarks, UpdateMarksIndex. unfold_setters.
  rewrite (std_map_insert_present _ _ marks) by done. by rewrite Hg.
Qed.

Lemma markIndexes_at_SetUserMarks g marks st t :
  m_marks st !! g = None →
  markIndexes_at (m_marksIndex (SetUserMarks g marks st)) t g =
  tile_positions (mark_hits t) 0 marks.
Proof.
  intros Hg. rewrite SetUserMarks_fresh by done. simpl.
  rewrite markIndexes_at_CleanIndex, markIndexes_at_index_marks,
    markIndexes_at_clear_marks.
  by rewrite !decide_True by done.
Qed.

Lemma lineIndexes_at_SetUserLines g lines st t :
  m_lines st !! g = None →
  lineIndexes_at (m_marksIndex (SetUserLines g lines st)) t g =
  tile_positions (line_hits t) 0 lines.
Proof.
  intros Hg. rewrite SetUserLines_fresh by done. simpl.
  rewrite lineIndexes_at_CleanIndex, lineIndexes_at_index_lines,
    lineIndexes_at_clear_lines.
  by rewrite !decide_True by done.
Qed.

Lemma mutate_flushFn st op : m_flushFn (mutate st op) = m_flushFn st.
Proof.
  destruct op as [g|g marks|g lines|g []]; simpl; try done.
  - by rewrite ClearUserMarks_eq.
  - unfold SetUserMarks, UpdateMarksIndex. unfold_setters. by case_match.
  - unfold SetUserLines, UpdateLinesIndex. unfold_setters. by case_match.
Qed.

Lemma run_flushFn ops st : m_flushFn (run ops st) = m_flushFn st.
Proof.
  unfold run. revert st. induction ops as [|op ops IH]; intros st; simpl; [done|].
  by rewrite IH, mutate_flushFn.
Qed.

Lemma entry_non_empty (index : MarksIndex) t g x :
  x ∈ markIndexes_at index t g ∨ x ∈ lineIndexes_at index t g →
  is_Some (entry_at index t g).
Proof.
  unfold markIndexes_at, lineIndexes_at.
  destruct (entry_at index t g); simpl; [by eexists|].
  by intros [?%elem_of_nil|?%elem_of_nil].
Qed.

(** Toggling the visibility of one group any number of times. *)
Definition toggle (g : GroupID) (flags : list bool) st : UserMarkGenerator World :=
  foldl (λ st isVisible, SetGroupVisibility g isVisible st) st flags.

Lemma toggle_frame g flags st :
  m_flushFn (toggle g flags st) = m_flushFn st ∧
  m_marks (toggle g flags st) = m_marks st ∧
  m_lines (toggle g flags st) = m_lines st ∧
  m_marksIndex (toggle g flags st) = m_marksIndex st ∧
  ∀ h, h ≠ g → h ∈ m_groupsVisibility (toggle g flags st) ↔ h ∈ m_groupsVisibility st.
Proof.
  unfold toggle. revert st.
  induction flags as [|b flags IH]; intros st; simpl; [done|].
  destruct (IH (SetGroupVisibility g b st)) as (-> & -> & -> & -> & Hv).
  do 4 (split; [by destruct b|]).
  intros h Hne. rewrite Hv by done.
  destruct b; unfold SetGroupVisibility; unfold_setters.
  - rewrite elem_of_union, elem_of_singleton. split; [by intros [?|?]|by right].
  - rewrite elem_of_difference, elem_of_singleton. split; [by intros [? _]|done].
Qed.

(** A group without collections and without entries in the index. *)
Definition never_populated (g : GroupID) st : Prop :=
  m_marks st !! g = None ∧ m_lines st !! g = None ∧
  (∀ t, entry_at (m_marksIndex st) t g = None).

(** A call that supplies a collection for the group. *)
Definition populates (g : GroupID) (op : Mutation) : Prop :=
  match op with
  | ReplaceMarks h _ | ReplaceLines h _ => h = g
  | Clear _ | SetVisibility _ _ => False
  end.

Lemma clear_group_absent (f : IndexesCollection → IndexesCollection) g (index : MarksIndex) :
  (∀ t, entry_at index t g = None) → alter f g <$> index = index.
Proof.
  intros Habs. apply map_eq. intros t. rewrite lookup_fmap.
  specialize (Habs t). unfold entry_at in Habs.
  destruct (index !! t) as [tg|]; simpl in *; [|done].
  f_equal. apply map_eq. intros h. rewrite lookup_alter.
  case_decide; [|done]. subst. by rewrite Habs.
Qed.

Lemma clear_group_twice g (index : MarksIndex) :
  clear_group_lineIndexes g (clear_group_markIndexes g
    (clear_group_lineIndexes g (clear_group_markIndexes g index))) =
  clear_group_lineIndexes g (clear_group_markIndexes g index).
Proof.
  unfold clear_group_lineIndexes, clear_group_markIndexes.
  apply map_eq. intros t. rewrite !lookup_fmap.
  destruct (index !! t) as [tg|]; simpl; [|done].
  f_equal. apply map_eq. intros h.
  destruct (decide (g = h)) as [->|Hne].
  - rewrite !lookup_alter_eq. by destruct (tg !! h).
  - by rewrite !lookup_alter_ne by done.
Qed.

Lemma loop_calls_agree {World'} st (st' : UserMarkGenerator World') t tex groups :
  m_marks st' = m_marks st →
  (∀ h, h ∈ groups.*1 → h ∈ m_groupsVisibility st' ↔ h ∈ m_groupsVisibility st) →
  loop_calls st' t tex groups = loop_calls st t tex groups.
Proof.
  intros Hm Hv. induction groups as [|[h idxs] groups IH]; simpl; [done|].
  rewrite Hm, IH by (intros h' Hh'; apply Hv; by right).
  specialize (Hv h ltac:(by left)).
  destruct (decide (h ∈ m_groupsVisibility st)).
  - by rewrite !decide_False by (intros Hn; apply Hn; tauto).
  - by rewrite !decide_True by tauto.
Qed.

(** The rebuild of one group creates no entry for another group. *)
Lemma entry_at_update_ne t h f (index : MarksIndex) t' g :
  g ≠ h →
  entry_at (update_IndexesCollection t h f (GetIndexesCollection t h index)) t' g =
  entry_at index t' g.
Proof.
  intros Hne. rewrite entry_at_update. by rewrite decide_False by (intros [_ ?]; done).
Qed.

Lemma entry_at_index_marks_ne h k (marks : UserMarksRenderCollection)
    (index : MarksIndex) t g :
  g ≠ h → entry_at (index_marks h k marks index) t g = entry_at index t g.
Proof.
  intros Hne. revert k index.
  induction marks as [|mark rest IH]; intros k index; simpl; [done|].
  rewrite IH. generalize zoomLevels. intros zs. revert index.
  induction zs as [|z zs IHz]; intros index; simpl; [done|].
  rewrite IHz. by apply entry_at_update_ne.
Qed.

Lemma entry_at_index_lines_ne h k (lines : UserLinesRenderCollection)
    (index : MarksIndex) t g :
  g ≠ h → entry_at (index_lines h k lines index) t g = entry_at index t g.
Proof.
  intros Hne. revert k index.
  induction lines as [|line rest IH]; intros k index; simpl; [done|].
  rewrite IH. generalize zoomLevels. intros zs. revert index.
  induction zs as [|z zs IHz]; intros index; simpl; [done|].
  rewrite IHz. generalize (elements (line_tiles line z)). intros ts. revert index.
  induction ts as [|t0 ts IHt]; intros index; simpl; [done|].
  rewrite IHt. by apply entry_at_update_ne.
Qed.

Lemma mutate_never_populated g op st :
  ¬ populates g op → never_populated g st → never_populated g (mutate st op).
Proof.
  intros Hop (Hm & Hl & Hi).
  destruct op as [h|h marks|h lines|h b]; simpl in *.
  - rewrite ClearUserMarks_eq. repeat split; simpl.
    + rewrite lookup_delete. case_decide; [done|]. done.
    + rewrite lookup_delete. case_decide; [done|]. done.
    + intros t. by rewrite entry_at_clear_lines, entry_at_clear_marks, Hi.
  - assert (g ≠ h) as Hne by (intros ->; by apply Hop).
    unfold SetUserMarks, UpdateMarksIndex. unfold_setters.
    destruct (std_map_insert h marks (m_marks st) !! h) as [marks'|] eqn:E;
      repeat split; simpl; try (by rewrite std_map_insert_ne); try done; intros t.
    + by rewrite entry_at_CleanIndex, entry_at_index_marks_ne, entry_at_clear_marks, Hi.
    + by rewrite entry_at_clear_marks, Hi.
  - assert (g ≠ h) as Hne by (intros ->; by apply Hop).
    unfold SetUserLines, UpdateLinesIndex. unfold_setters.
    destruct (std_map_insert h lines (m_lines st) !! h) as [lines'|] eqn:E;
      repeat split; simpl; try (by rewrite std_map_insert_ne); try done; intros t.
    + by rewrite entry_at_CleanIndex, entry_at_index_lines_ne, entry_at_clear_lines, Hi.
    + by rewrite entry_at_clear_lines, Hi.
  - by destruct b.
Qed.

(** A group is never populated as long as no call supplies it a collection. *)
Lemma run_never_populated g ops (flushFn : TFlushFn World) :
  Forall (λ op, ¬ populates g op) ops →
  never_populated g (run ops (mkGenerator flushFn ∅ ∅ ∅ ∅)).
Proof.
  intros Hops. unfold run.
  assert (Hinit : never_populated g (mkGenerator flushFn ∅ ∅ ∅ ∅)) by done.
  revert Hinit. generalize (mkGenerator flushFn ∅ ∅ ∅ ∅).
  induction Hops as [|op ops Hop Hops IH]; intros st Hst; simpl; [done|].
  apply IH. by apply mutate_never_populated.
Qed.

End Mutations.

(** ** Properties of the public operations *)

Lemma NoDup_all_equal {A} (l : list A) :
  NoDup l → (∀ x y, x ∈ l → y ∈ l → x = y) → length l ≤ 1.
Proof.
  intros Hnd Heq. destruct l as [|x [|y l]]; simpl; [lia|lia|].
  exfalso. apply NoDup_cons in Hnd as [Hx _]. apply Hx.
  rewrite (Heq x y); [by left|by left|by right; left].
Qed.

Lemma line_hits_spec t (line : UserLineRenderParams) z :
  line_hits t line z ↔ ∃ v, v ∈ m_points line ∧ t = GetTileKeyByPoint v z.
Proof.
  unfold line_hits, line_tiles. rewrite elem_of_list_to_set, list_elem_of_fmap.
  split; intros (v & ? & ?); by exists v.
Qed.

Section Claims.
Context {World : Type}.
Implicit Types (st : UserMarkGenerator World) (w : World).

Lemma SetGroupVisibility_frame g b st :
  m_flushFn (SetGroupVisibility g b st) = m_flushFn st ∧
  m_marks (SetGroupVisibility g b st) = m_marks st ∧
  m_lines (SetGroupVisibility g b st) = m_lines st ∧
  m_marksIndex (SetGroupVisibility g b st) = m_marksIndex st.
Proof. by destruct b. Qed.

(** Generation reads the mark collections, the visibility set and the
    mark positions of the requested tile, and nothing else. *)
Lemma Generate_agree {World'} st (st' : UserMarkGenerator World') t tex :
  m_marks st' = m_marks st →
  (∀ h, is_Some (entry_at (m_marksIndex st) t h) →
        h ∈ m_groupsVisibility st' ↔ h ∈ m_groupsVisibility st) →
  mark_positions (m_marksIndex st') !! t = mark_positions (m_marksIndex st) !! t →
  sink_calls t tex st' = sink_calls t tex st.
Proof.
  intros Hm Hv Hidx. rewrite !sink_calls_eq. unfold entry_at in Hv.
  unfold mark_positions in Hidx. rewrite !lookup_fmap in Hidx.
  destruct (m_marksIndex st !! t) as [groups|],
           (m_marksIndex st' !! t) as [groups'|]; simpl in *; try done.
  injection Hidx as ->. apply loop_calls_agree; [done|].
  intros h ([h' idxs] & -> & Hin)%list_elem_of_fmap.
  apply elem_of_ordered_groups in Hin. rewrite lookup_fmap in Hin. simpl in *.
  apply Hv. destruct (groups !! h'); [by eexists|done].
Qed.

(** C6. After [SetUserLines] for a group without line collection, the
    position [j] of a line is stored under a tile exactly when a point of
    the line falls into that tile at a zoom level from 1 to the upper
    scale; it is stored once for each such zoom level, hence at most once
    when the tiles of different zoom levels are different. A tile without
    a point of the line does not receive [j], whatever the segments cross. *)
Theorem SetUserLines_registers_vertex_tiles st g lines j line t :
  m_lines st !! g = None →
  (N.of_nat (length lines) ≤ 2 ^ 32)%N →
  lines !! j = Some line →
  let positions := lineIndexes_at (m_marksIndex (SetUserLines g lines st)) t g in
  (N.of_nat j ∈ positions ↔
     ∃ z v, (1 ≤ z ≤ GetUpperScale)%Z ∧ v ∈ m_points line ∧
            t = GetTileKeyByPoint v z) ∧
  length (filter (λ x, x = N.of_nat j) positions) =
    length (filter (line_hits t line) zoomLevels) ∧
  ((∀ p q z z', GetTileKeyByPoint p z = GetTileKeyByPoint q z' → z = z') →
   length (filter (λ x, x = N.of_nat j) positions) ≤ 1).
Proof.
  intros Hg Hlen Hj positions. subst positions.
  rewrite lineIndexes_at_SetUserLines by done.
  assert (Hcount := tile_positions_count (line_hits t) 0 j lines line Hlen Hj).
  simpl in Hcount. split; [|split; [done|]].
  - rewrite elem_of_tile_positions. split.
    + intros (j' & line' & z & Hj' & Hz & Hhit & Hcast). simpl in Hcast.
      assert (j' < length lines) by (by eapply lookup_lt_Some).
      assert (j < length lines) by (by eapply lookup_lt_Some).
      rewrite static_cast_uint32_small in Hcast by lia.
      assert (j' = j) as -> by lia. rewrite Hj in Hj'. injection Hj' as <-.
      apply line_hits_spec in Hhit as (v & Hv & ->).
      exists z, v. by rewrite <- zoomLevels_spec.
    + intros (z & v & Hz & Hv & ->). exists j, line, z.
      assert (j < length lines) by (by eapply lookup_lt_Some).
      split; [done|]. split; [by apply zoomLevels_spec|].
      split; [apply line_hits_spec; by exists v|].
      simpl. rewrite static_cast_uint32_small; [done|lia].
  - intros Hzoom. rewrite Hcount. apply NoDup_all_equal.
    + apply NoDup_filter, NoDup_zoomLevels.
    + intros z z' [(v & _ & Hv)%line_hits_spec _]%list_elem_of_filter
                   [(v' & _ & Hv')%line_hits_spec _]%list_elem_of_filter.
      apply (Hzoom v v'). by rewrite <- Hv, <- Hv'.
Qed.

(** C5. After [SetUserMarks] for a group without mark collection, the
    entry of the group under the tile of a mark's pivot, at every zoom
    level from 1 to the upper scale, holds the position of the mark, and
    the positions of the entry ascend. With the group visible, whether it
    was made visible before or after, a generation for that tile calls the
    sink once for the group, with the geometry cached from the supplied
    collection and the positions of that entry. This holds whatever else
    the tile lists; when every group listed under the tile has a mark
    collection, the generation returns without dereferencing a null
    pointer. *)
Theorem SetUserMarks_indexes_and_delivers st g marks i mark z tex :
  m_marks st !! g = None →
  (N.of_nat (length marks) ≤ 2 ^ 32)%N →
  marks !! i = Some mark →
  (1 ≤ z ≤ GetUpperScale)%Z →
  let t := GetTileKeyByPoint (m_pivot mark) z in
  let st1 := SetGroupVisibility g true (SetUserMarks g marks st) in
  let st2 := SetUserMarks g marks (SetGroupVisibility g true st) in
  ∃ e, entry_at (m_marksIndex (SetUserMarks g marks st)) t g = Some e ∧
       N.of_nat i ∈ m_markIndexes e ∧
       StronglySorted N.le (m_markIndexes e) ∧
       calls_for g (sink_calls t tex st1) =
         [(g, CacheUserMarks t tex (Some marks) (m_markIndexes e))] ∧
       calls_for g (sink_calls t tex st2) =
         [(g, CacheUserMarks t tex (Some marks) (m_markIndexes e))] ∧
       ∀ w, (∀ h, h ≠ g → is_Some (entry_at (m_marksIndex st1) t h) →
                  is_Some (m_marks st !! h)) →
            returns (GenerateUserMarksGeometry t tex st1 w).
Proof.
  intros Hg Hlen Hi Hz t st1 st2.
  assert (i < length marks) by (by eapply lookup_lt_Some).
  assert (Hidx1 : m_marksIndex st1 = m_marksIndex (SetUserMarks g marks st)) by done.
  assert (Hidx2 : m_marksIndex st2 = m_marksIndex (SetUserMarks g marks st)).
  { subst st2. unfold SetUserMarks, UpdateMarksIndex, SetGroupVisibility.
    unfold_setters. by destruct (std_map_insert g marks (m_marks st) !! g). }
  assert (Hm1 : m_marks st1 = <[g := marks]> (m_marks st)).
  { subst st1. simpl. by rewrite SetUserMarks_fresh by done. }
  assert (Hm2 : m_marks st2 = <[g := marks]> (m_marks st)).
  { subst st2. by rewrite SetUserMarks_fresh by done. }
  assert (Hpos := markIndexes_at_SetUserMarks g marks st t Hg).
  assert (Hin : N.of_nat i ∈ markIndexes_at (m_marksIndex (SetUserMarks g marks st)) t g).
  { rewrite Hpos. apply elem_of_tile_positions. exists i, mark, z.
    split; [done|]. split; [by apply zoomLevels_spec|]. split; [done|].
    simpl. rewrite static_cast_uint32_small; [done|lia]. }
  destruct (entry_non_empty _ _ _ _ (or_introl Hin)) as [e He].
  exists e. unfold markIndexes_at in Hin, Hpos.
  rewrite He in Hin, Hpos. simpl in Hin, Hpos.
  split; [done|]. split; [done|]. split; [|split; [|split]].
  - rewrite Hpos. by apply tile_positions_sorted.
  - rewrite (sink_calls_for_visible st1 t tex g e).
    + by rewrite Hm1, lookup_insert_eq.
    + by rewrite Hidx1.
    + subst st1. simpl. apply elem_of_union. left. by apply elem_of_singleton.
  - rewrite (sink_calls_for_visible st2 t tex g e).
    + by rewrite Hm2, lookup_insert_eq.
    + by rewrite Hidx2.
    + subst st2. unfold SetUserMarks, UpdateMarksIndex, SetGroupVisibility.
      unfold_setters.
      assert (Hv : g ∈ {[g]} ∪ m_groupsVisibility st)
        by (apply elem_of_union; left; by apply elem_of_singleton).
      by destruct (std_map_insert g marks (m_marks st) !! g).
  - intros w Hall. apply Generate_returns. intros h Hh. rewrite Hm1.
    destruct (decide (h = g)) as [->|Hne].
    + rewrite lookup_insert_eq. by eexists.
    + rewrite lookup_insert_ne by done. by apply Hall.
Qed.

(** C7. Any number of [SetGroupVisibility] calls for a group leaves the
    index, the collections and the sink as they were, and the visibility
    of every other group; a generation then delivers the same calls for the
    other groups and returns in the same cases. *)
Theorem SetGroupVisibility_keeps_index st g flags :
  let st' := toggle g flags st in
  m_marksIndex st' = m_marksIndex st ∧
  m_marks st' = m_marks st ∧
  m_lines st' = m_lines st ∧
  m_flushFn st' = m_flushFn st ∧
  ∀ t tex,
    filter (λ c : SinkCall, c.1 ≠ g) (sink_calls t tex st') =
      filter (λ c : SinkCall, c.1 ≠ g) (sink_calls t tex st) ∧
    ∀ w, returns (GenerateUserMarksGeometry t tex st' w) ↔
         returns (GenerateUserMarksGeometry t tex st w).
Proof.
  intros st'. destruct (toggle_frame g flags st) as (Hf & Hm & Hl & Hi & Hv).
  fold st' in Hf, Hm, Hl, Hi, Hv. repeat split; try done.
  - rewrite !sink_calls_eq, Hi. destruct (m_marksIndex st !! t); [|done].
    by apply loop_calls_other_groups.
  - rewrite !Generate_returns, Hi, Hm. done.
  - rewrite !Generate_returns, Hi, Hm. done.
Qed.

(** C8. A generation for a tile that the index does not hold returns at
    once, with the state and the sink untouched. For a group that was
    never populated, [ClearUserMarks] does what [SetGroupVisibility false]
    does, which is nothing when the group is not visible, and
    [SetGroupVisibility] changes the visibility set only, with no effect
    on any generation. [ClearUserMarks] is idempotent. *)
Theorem absent_inputs_are_no_ops st g t tex w :
  (m_marksIndex st !! t = None →
   GenerateUserMarksGeometry t tex st w = Done st w ∧ sink_calls t tex st = []) ∧
  (never_populated g st →
   ClearUserMarks g st = SetGroupVisibility g false st ∧
   (g ∉ m_groupsVisibility st → SetGroupVisibility g false st = st) ∧
   ∀ isVisible,
     m_marks (SetGroupVisibility g isVisible st) = m_marks st ∧
     m_lines (SetGroupVisibility g isVisible st) = m_lines st ∧
     m_marksIndex (SetGroupVisibility g isVisible st) = m_marksIndex st ∧
     ∀ t' tex' w',
       outcome_world
         (GenerateUserMarksGeometry t' tex' (SetGroupVisibility g isVisible st) w') =
         outcome_world (GenerateUserMarksGeometry t' tex' st w') ∧
       (returns (GenerateUserMarksGeometry t' tex' (SetGroupVisibility g isVisible st) w') ↔
        returns (GenerateUserMarksGeometry t' tex' st w'))) ∧
  ClearUserMarks g (ClearUserMarks g st) = ClearUserMarks g st.
Proof.
  split; [|split].
  - intros Ht. rewrite sink_calls_eq. unfold GenerateUserMarksGeometry.
    by rewrite Ht.
  - intros (Hm & Hl & Hi). split; [|split].
    + rewrite ClearUserMarks_eq, !delete_id by done.
      unfold clear_group_lineIndexes, clear_group_markIndexes.
      rewrite (clear_group_absent clear_markIndexes g (m_marksIndex st)) by done.
      by rewrite clear_group_absent by done.
    + intros Hv. unfold SetGroupVisibility, with_visibility.
      replace (m_groupsVisibility st ∖ {[g]}) with (m_groupsVisibility st);
        [by destruct st|].
      apply set_eq. intros h. rewrite elem_of_difference, elem_of_singleton.
      split; [|by intros [? _]]. intros Hh. split; [done|]. by intros ->.
    + intros b.
      destruct (SetGroupVisibility_frame g b st) as (Hf' & Hm' & Hl' & Hi').
      do 3 (split; [done|]). intros t' tex' w'. split.
      * rewrite !Generate_world, Hf'. f_equal.
        apply Generate_agree; [done| |by rewrite Hi'].
        intros h [e He].
        assert (h ≠ g) as Hne by (intros ->; by rewrite Hi in He).
        destruct b; unfold SetGroupVisibility; unfold_setters.
        -- rewrite elem_of_union, elem_of_singleton.
           split; [by intros [?|?]|by right].
        -- rewrite elem_of_difference, elem_of_singleton.
           split; [by intros [? _]|done].
      * by rewrite !Generate_returns, Hi', Hm'.
  - rewrite !ClearUserMarks_eq. simpl. f_equal.
    + apply delete_delete_eq.
    + apply delete_delete_eq.
    + apply set_eq. intros h. rewrite !elem_of_difference. tauto.
    + apply clear_group_twice.
Qed.

(** C9. The constructor leaves it to the assertion whether construction
    proceeds: with an empty sink it does not; with a sink [f] it yields a
    generator that stores [f] and keeps it through every call. Every later
    generation hands to [f], in the order of the groups, one payload for
    each visible group listed under the tile, and nothing else reaches
    the sink. *)
Theorem constructor_requires_sink :
  UserMarkGenerator_new (World := World) None = AssertionFailed ∧
  ∀ f : TFlushFn World, ∃ st,
    UserMarkGenerator_new (Some f) = Constructed st ∧
    m_flushFn st = f ∧
    ∀ ops t tex w,
      m_flushFn (run ops st) = f ∧
      outcome_world (GenerateUserMarksGeometry t tex (run ops st) w) =
        replay f w (deliveries t tex (run ops st)).
Proof.
  split; [done|]. intros f. eexists. split; [done|]. split; [done|].
  intros ops t tex w.
  rewrite Generate_world, run_flushFn, sink_calls_deliveries. done.
Qed.

(** C10. A generation reads the mark collection of every group listed
    under the tile before it looks at the visibility set: it dereferences
    a null pointer exactly when one of these groups has no mark
    collection. It then goes on: an invisible group of this kind is
    skipped, a visible one is handed to the sink with geometry cached
    through the null reference. A group that is indexed through lines
    only, or whose entries are left over from [ClearUserMarks], makes the
    generation dereference a null pointer, visible or not. *)
Theorem Generate_requires_mark_collections st t tex w :
  (dereferences_null (GenerateUserMarksGeometry t tex st w) ↔
   ∃ g, is_Some (entry_at (m_marksIndex st) t g) ∧ m_marks st !! g = None) ∧
  (returns (GenerateUserMarksGeometry t tex st w) ↔
   ∀ g, is_Some (entry_at (m_marksIndex st) t g) → is_Some (m_marks st !! g)) ∧
  (∀ g e,
     entry_at (m_marksIndex st) t g = Some e → m_marks st !! g = None →
     (g ∉ m_groupsVisibility st → calls_for g (sink_calls t tex st) = []) ∧
     (g ∈ m_groupsVisibility st →
      calls_for g (sink_calls t tex st) =
        [(g, CacheUserMarks t tex None (m_markIndexes e))])) ∧
  (∀ g lines line v z isVisible,
     m_marks st !! g = None → m_lines st !! g = None →
     line ∈ lines → v ∈ m_points line → (1 ≤ z ≤ GetUpperScale)%Z →
     dereferences_null
       (GenerateUserMarksGeometry (GetTileKeyByPoint v z) tex
          (SetGroupVisibility g isVisible (SetUserLines g lines st)) w)) ∧
  (∀ g e isVisible,
     entry_at (m_marksIndex st) t g = Some e →
     dereferences_null
       (GenerateUserMarksGeometry t tex
          (SetGroupVisibility g isVisible (ClearUserMarks g st)) w)).
Proof.
  split; [apply Generate_dereferences_null|].
  split; [apply Generate_returns|]. split; [|split].
  - intros g e He Hm. split; intros Hv.
    + by apply sink_calls_for_invisible.
    + rewrite <- Hm. by apply sink_calls_for_visible.
  - intros g lines line v z b Hm Hl Hline Hv Hz.
    apply Generate_dereferences_null. exists g.
    destruct (SetGroupVisibility_frame g b (SetUserLines g lines st))
      as (_ & Hm' & _ & Hi').
    rewrite Hm', Hi'. apply list_elem_of_lookup in Hline as [j Hj]. split.
    + eapply entry_non_empty. right.
      rewrite lineIndexes_at_SetUserLines by done.
      apply elem_of_tile_positions. exists j, line, z.
      split; [done|]. split; [by apply zoomLevels_spec|].
      split; [apply line_hits_spec; by exists v|done].
    + rewrite SetUserLines_fresh by done. done.
  - intros g e b He.
    apply Generate_dereferences_null. exists g.
    destruct (SetGroupVisibility_frame g b (ClearUserMarks g st))
      as (_ & Hm' & _ & Hi').
    rewrite Hm', Hi', ClearUserMarks_eq. simpl.
    rewrite entry_at_clear_lines, entry_at_clear_marks, He, lookup_delete_eq.
    split; [by eexists|done].
Qed.

(** C4, as the code has it. A generation builds the payload of a visible
    group from the group's mark collection and the mark positions stored
    under the tile, and delivers it once. Line collections and stored line
    positions are not read: a state that differs in them only gives the
    same sink calls and returns in the same cases. *)
Theorem Generate_reads_marks_only st (st' : UserMarkGenerator World) t tex g e marks :
  entry_at (m_marksIndex st) t g = Some e →
  m_marks st !! g = Some marks →
  g ∈ m_groupsVisibility st →
  m_marks st' = m_marks st →
  m_groupsVisibility st' = m_groupsVisibility st →
  mark_positions (m_marksIndex st') = mark_positions (m_marksIndex st) →
  calls_for g (sink_calls t tex st) =
    [(g, CacheUserMarks t tex (Some marks) (m_markIndexes e))] ∧
  sink_calls t tex st' = sink_calls t tex st ∧
  ∀ w, returns (GenerateUserMarksGeometry t tex st' w) ↔
       returns (GenerateUserMarksGeometry t tex st w).
Proof.
  intros He Hm Hv Hm' Hv' Hidx.
  assert (Ht : mark_positions (m_marksIndex st') !! t =
               mark_positions (m_marksIndex st) !! t) by (by rewrite Hidx).
  split; [rewrite <- Hm; by apply sink_calls_for_visible|]. split.
  - apply Generate_agree; try done. intros h _. by rewrite Hv'.
  - intros w. rewrite !Generate_returns, Hm'.
    assert (Hlisted : ∀ h, is_Some (entry_at (m_marksIndex st') t h) ↔
                           is_Some (entry_at (m_marksIndex st) t h)).
    { intros h. unfold entry_at.
      unfold mark_positions in Ht. rewrite !lookup_fmap in Ht.
      destruct (m_marksIndex st !! t) as [groups|],
               (m_marksIndex st' !! t) as [groups'|]; simpl in *; try done.
      injection Ht as Ht.
      assert (Hh : (m_markIndexes <$> groups') !! h = (m_markIndexes <$> groups) !! h)
        by (by rewrite Ht).
      rewrite !lookup_fmap in Hh.
      destruct (groups !! h), (groups' !! h); simpl in Hh; try done;
        split; intros [? ?]; done. }
    split; intros Hall h Hh; apply Hall; by apply Hlisted.
Qed.

End Claims.
(** ** Invariants of the reachable states *)

Section Invariants.
Context {World : Type}.
Implicit Types (st : UserMarkGenerator World).

(** The positions stored for a group are those of the group's stored
    collection, and there are none for a group without collection. *)
Definition index_consistent st : Prop :=
  ∀ t g,
    markIndexes_at (m_marksIndex st) t g =
      from_option (tile_positions (mark_hits t) 0) [] (m_marks st !! g) ∧
    lineIndexes_at (m_marksIndex st) t g =
      from_option (tile_positions (line_hits t) 0) [] (m_lines st !! g).

Lemma UpdateMarksIndex_positions g st t h :
  markIndexes_at (m_marksIndex (UpdateMarksIndex g st)) t h =
    (if decide (h = g)
     then from_option (tile_positions (mark_hits t) 0) [] (m_marks st !! g)
     else markIndexes_at (m_marksIndex st) t h) ∧
  lineIndexes_at (m_marksIndex (UpdateMarksIndex g st)) t h =
    lineIndexes_at (m_marksIndex st) t h.
Proof.
  unfold UpdateMarksIndex. destruct (m_marks st !! g) as [marks|]; unfold_setters.
  - rewrite markIndexes_at_CleanIndex, markIndexes_at_index_marks,
      markIndexes_at_clear_marks, lineIndexes_at_CleanIndex,
      lineIndexes_at_index_marks, lineIndexes_at_clear_marks.
    split; [|done]. case_decide; [done|]. by rewrite app_nil_r.
  - by rewrite markIndexes_at_clear_marks, lineIndexes_at_clear_marks.
Qed.

Lemma UpdateLinesIndex_positions g st t h :
  lineIndexes_at (m_marksIndex (UpdateLinesIndex g st)) t h =
    (if decide (h = g)
     then from_option (tile_positions (line_hits t) 0) [] (m_lines st !! g)
     else lineIndexes_at (m_marksIndex st) t h) ∧
  markIndexes_at (m_marksIndex (UpdateLinesIndex g st)) t h =
    markIndexes_at (m_marksIndex st) t h.
Proof.
  unfold UpdateLinesIndex. destruct (m_lines st !! g) as [lines|]; unfold_setters.
  - rewrite lineIndexes_at_CleanIndex, lineIndexes_at_index_lines,
      lineIndexes_at_clear_lines, markIndexes_at_CleanIndex,
      markIndexes_at_index_lines, markIndexes_at_clear_lines.
    split; [|done]. case_decide; [done|]. by rewrite app_nil_r.
  - by rewrite lineIndexes_at_clear_lines, markIndexes_at_clear_lines.
Qed.

Lemma UpdateMarksIndex_frame g st :
  m_flushFn (UpdateMarksIndex g st) = m_flushFn st ∧
  m_marks (UpdateMarksIndex g st) = m_marks st ∧
  m_lines (UpdateMarksIndex g st) = m_lines st ∧
  m_groupsVisibility (UpdateMarksIndex g st) = m_groupsVisibility st.
Proof. unfold UpdateMarksIndex. by destruct (m_marks st !! g). Qed.

Lemma UpdateLinesIndex_frame g st :
  m_flushFn (UpdateLinesIndex g st) = m_flushFn st ∧
  m_marks (UpdateLinesIndex g st) = m_marks st ∧
  m_lines (UpdateLinesIndex g st) = m_lines st ∧
  m_groupsVisibility (UpdateLinesIndex g st) = m_groupsVisibility st.
Proof. unfold UpdateLinesIndex. by destruct (m_lines st !! g). Qed.

Lemma std_map_insert_lookup {A} (m : gmap GroupID A) g h a :
  std_map_insert g a m !! h =
  if decide (h = g) then Some (default a (m !! g)) else m !! h.
Proof.
  case_decide as Hh.
  - subst h. unfold std_map_insert. destruct (m !! g) as [b|] eqn:E; simpl; [done|].
    apply lookup_insert_eq.
  - by apply std_map_insert_ne.
Qed.

Lemma mutate_consistent st op :
  index_consistent st → index_consistent (mutate st op).
Proof.
  intros Hst t h. destruct (Hst t h) as [Hm Hl].
  destruct op as [g|g marks|g lines|g b]; simpl.
  - unfold ClearUserMarks. cbv zeta.
    match goal with |- context [UpdateMarksIndex g ?s] => set (st0 := s) end.
    destruct (UpdateLinesIndex_positions g (UpdateMarksIndex g st0) t h) as [-> ->].
    destruct (UpdateMarksIndex_positions g st0 t h) as [-> ->].
    destruct (UpdateLinesIndex_frame g (UpdateMarksIndex g st0)) as (_ & -> & -> & _).
    destruct (UpdateMarksIndex_frame g st0) as (_ & -> & -> & _).
    subst st0. unfold_setters. rewrite !lookup_delete.
    destruct (decide (h = g)) as [->|Hne].
    + by rewrite !decide_True by done.
    + by rewrite !decide_False by done.
  - unfold SetUserMarks.
    match goal with |- context [UpdateMarksIndex g ?s] => set (st0 := s) end.
    destruct (UpdateMarksIndex_positions g st0 t h) as [-> ->].
    destruct (UpdateMarksIndex_frame g st0) as (_ & -> & -> & _).
    subst st0. unfold_setters. split; [|done].
    destruct (decide (h = g)) as [->|Hne]; [done|].
    by rewrite std_map_insert_ne by done.
  - unfold SetUserLines.
    match goal with |- context [UpdateLinesIndex g ?s] => set (st0 := s) end.
    destruct (UpdateLinesIndex_positions g st0 t h) as [-> ->].
    destruct (UpdateLinesIndex_frame g st0) as (_ & -> & -> & _).
    subst st0. unfold_setters. split; [done|].
    destruct (decide (h = g)) as [->|Hne]; [done|].
    by rewrite std_map_insert_ne by done.
  - by destruct b.
Qed.

Lemma run_consistent ops st :
  index_consistent st → index_consistent (run ops st).
Proof.
  unfold run. revert st. induction ops as [|op ops IH]; intros st Hst; simpl; [done|].
  by apply IH, mutate_consistent.
Qed.

Lemma new_generator_consistent (flushFn : TFlushFn World) ops :
  index_consistent (run ops (mkGenerator flushFn ∅ ∅ ∅ ∅)).
Proof. apply run_consistent. intros t g. by split. Qed.

(** X1. Whatever the calls made on a new generator, the mark positions
    and the line positions stored under a tile for a group are exactly
    those that the rebuild loops compute from the collection the generator
    holds for the group, and a group without collection has no position
    left in any tile. *)
Theorem reachable_index_consistent (flushFn : TFlushFn World) ops t g :
  let st := run ops (mkGenerator flushFn ∅ ∅ ∅ ∅) in
  markIndexes_at (m_marksIndex st) t g =
    from_option (tile_positions (mark_hits t) 0) [] (m_marks st !! g) ∧
  lineIndexes_at (m_marksIndex st) t g =
    from_option (tile_positions (line_hits t) 0) [] (m_lines st !! g).
Proof. intros st. apply (new_generator_consistent flushFn ops). Qed.

(** X2. In every state reached from a new generator, the mark positions
    stored under a tile for a group are valid positions of the group's
    stored collection, in ascending order, and position [i] is among them
    exactly when the pivot of mark [i] falls into the tile at a zoom level
    from 1 to the upper scale. *)
Theorem reachable_mark_positions (flushFn : TFlushFn World) ops t g marks :
  let st := run ops (mkGenerator flushFn ∅ ∅ ∅ ∅) in
  m_marks st !! g = Some marks →
  (N.of_nat (length marks) ≤ 2 ^ 32)%N →
  StronglySorted N.le (markIndexes_at (m_marksIndex st) t g) ∧
  ∀ x, x ∈ markIndexes_at (m_marksIndex st) t g ↔
       ∃ i mark z, marks !! i = Some mark ∧ x = N.of_nat i ∧
                   (1 ≤ z ≤ GetUpperScale)%Z ∧
                   GetTileKeyByPoint (m_pivot mark) z = t.
Proof.
  intros st Hm Hlen.
  destruct (new_generator_consistent flushFn ops t g) as [Hpos _].
  fold st in Hpos. rewrite Hpos, Hm. simpl. split.
  - by apply tile_positions_sorted.
  - intros x. rewrite elem_of_tile_positions. split.
    + intros (i & mark & z & Hi & Hz & Hhit & ->).
      assert (i < length marks) by (by eapply lookup_lt_Some).
      exists i, mark, z. split; [done|]. split.
      * simpl. rewrite static_cast_uint32_small; [done|lia].
      * split; [by apply zoomLevels_spec|done].
    + intros (i & mark & z & Hi & -> & Hz & Hhit).
      assert (i < length marks) by (by eapply lookup_lt_Some).
      exists i, mark, z. split; [done|]. split; [by apply zoomLevels_spec|].
      split; [done|]. simpl. rewrite static_cast_uint32_small; [done|lia].
Qed.

(** X3. In every state reached from a new generator, the line positions
    stored under a tile for a group are valid positions of the group's
    stored line collection, in ascending order, and position [j] is among
    them exactly when a point of line [j] falls into the tile at a zoom
    level from 1 to the upper scale. *)
Theorem reachable_line_positions (flushFn : TFlushFn World) ops t g lines :
  let st := run ops (mkGenerator flushFn ∅ ∅ ∅ ∅) in
  m_lines st !! g = Some lines →
  (N.of_nat (length lines) ≤ 2 ^ 32)%N →
  StronglySorted N.le (lineIndexes_at (m_marksIndex st) t g) ∧
  ∀ x, x ∈ lineIndexes_at (m_marksIndex st) t g ↔
       ∃ j line z v, lines !! j = Some line ∧ x = N.of_nat j ∧
                     (1 ≤ z ≤ GetUpperScale)%Z ∧ v ∈ m_points line ∧
                     GetTileKeyByPoint v z = t.
Proof.
  intros st Hl Hlen.
  destruct (new_generator_consistent flushFn ops t g) as [_ Hpos].
  fold st in Hpos. rewrite Hpos, Hl. simpl. split.
  - by apply tile_positions_sorted.
  - intros x. rewrite elem_of_tile_positions. split.
    + intros (j & line & z & Hj & Hz & (v & Hv & ->)%line_hits_spec & ->).
      assert (j < length lines) by (by eapply lookup_lt_Some).
      exists j, line, z, v. split; [done|]. split.
      * simpl. rewrite static_cast_uint32_small; [done|lia].
      * split; [by apply zoomLevels_spec|done].
    + intros (j & line & z & v & Hj & -> & Hz & Hv & <-).
      assert (j < length lines) by (by eapply lookup_lt_Some).
      exists j, line, z. split; [done|]. split; [by apply zoomLevels_spec|].
      split; [apply line_hits_spec; by exists v|].
      simpl. rewrite static_cast_uint32_small; [done|lia].
Qed.

End Invariants.

(** ** The index operations on their own *)

(** An index without leftovers: no tile with an empty group map, and no
    entry whose two lists are empty. *)
Definition index_pruned (index : MarksIndex) : Prop :=
  (∀ t (tileGroups : MarkIndexesGroups), index !! t = Some tileGroups → tileGroups ≠ ∅) ∧
  (∀ t g e, entry_at index t g = Some e → ¬ indexes_empty e).

(** Every group map holds entries with a position only. *)
Definition entries_pruned (index : MarksIndex) : Prop :=
  ∀ t g e, entry_at index t g = Some e → ¬ indexes_empty e.

Lemma entry_at_Some (index : MarksIndex) t g e :
  entry_at index t g = Some e ↔
  ∃ tileGroups : MarkIndexesGroups, index !! t = Some tileGroups ∧ tileGroups !! g = Some e.
Proof.
  unfold entry_at. destruct (index !! t) as [tg|]; simpl.
  - split; [by exists tg|]. by intros (tg' & [= <-] & ?).
  - split; [done|]. by intros (tg' & ? & _).
Qed.

(** X4. [CleanIndex] keeps exactly the entries that hold a position and
    keeps them as they are; it never creates an entry or a tile and never
    changes a list. *)
Theorem CleanIndex_keeps_entries_with_positions (index : MarksIndex) t g e :
  (entry_at (CleanIndex index) t g = Some e ↔
   entry_at index t g = Some e ∧ ¬ indexes_empty e) ∧
  (is_Some (CleanIndex index !! t) → is_Some (index !! t)) ∧
  markIndexes_at (CleanIndex index) t g = markIndexes_at index t g ∧
  lineIndexes_at (CleanIndex index) t g = lineIndexes_at index t g.
Proof.
  split; [|split; [|split]].
  - rewrite entry_at_CleanIndex. destruct (entry_at index t g) as [e'|]; simpl.
    + case_decide as He; split.
      * done.
      * intros [[= ->] Hne]. by destruct Hne.
      * intros [= ->]. done.
      * by intros [? _].
    + split; [done|]. by intros [? _].
  - unfold CleanIndex. rewrite lookup_fmap, fmap_is_Some.
    intros [tg [Htg _]%map_lookup_filter_Some]. by eexists.
  - apply markIndexes_at_CleanIndex.
  - apply lineIndexes_at_CleanIndex.
Qed.

Lemma CleanIndex_entries_pruned (index : MarksIndex) : entries_pruned (CleanIndex index).
Proof.
  intros t g e He. rewrite entry_at_CleanIndex in He.
  destruct (entry_at index t g) as [e'|]; simpl in He; [|done].
  case_decide as Hne; [done|]. by injection He as <-.
Qed.

Lemma filter_entries_id (tileGroups : MarkIndexesGroups) :
  (∀ g e, tileGroups !! g = Some e → ¬ indexes_empty e) →
  filter (λ groupIt : GroupID * IndexesCollection, ¬ indexes_empty groupIt.2) tileGroups
  = tileGroups.
Proof. intros Hall. apply map_filter_id. intros g e Hg. simpl. by eapply Hall. Qed.

(** On an index whose entries all hold a position, [CleanIndex] is its
    pass over the tiles. *)
Lemma CleanIndex_on_entries_pruned (index : MarksIndex) :
  entries_pruned index →
  CleanIndex index =
  filter (λ tileIt : TileKey * MarkIndexesGroups, tileIt.2 ≠ ∅) index.
Proof.
  intros Hall. unfold CleanIndex. apply map_eq. intros t. rewrite lookup_fmap.
  destruct (filter _ index !! t) as [tg|] eqn:Et; simpl; [|done].
  f_equal. apply filter_entries_id. intros g e Hg.
  apply map_lookup_filter_Some in Et as [Et _].
  apply (Hall t g e). apply entry_at_Some. by exists tg.
Qed.

Lemma CleanIndex_fixpoint (index : MarksIndex) :
  index_pruned index → CleanIndex index = index.
Proof.
  intros [Htiles Hentries]. rewrite CleanIndex_on_entries_pruned by done.
  apply map_filter_id. intros t tg Ht. simpl. by eapply Htiles.
Qed.

(** X5. One [CleanIndex] leaves no entry with two empty lists, but may
    leave tiles that its second pass has emptied; a second [CleanIndex]
    erases them, so that two passes give an index without leftovers, on
    which every further pass changes nothing. An index without leftovers
    is not changed at all. *)
Theorem CleanIndex_twice_prunes (index : MarksIndex) :
  entries_pruned (CleanIndex index) ∧
  index_pruned (CleanIndex (CleanIndex index)) ∧
  CleanIndex (CleanIndex (CleanIndex index)) = CleanIndex (CleanIndex index) ∧
  (index_pruned index → CleanIndex index = index).
Proof.
  assert (H1 := CleanIndex_entries_pruned index).
  assert (H2 : index_pruned (CleanIndex (CleanIndex index))).
  { split; [|apply CleanIndex_entries_pruned].
    intros t tg Ht. rewrite (CleanIndex_on_entries_pruned _ H1) in Ht.
    by apply map_lookup_filter_Some in Ht as [_ ?]. }
  split; [done|]. split; [done|]. split; [by apply CleanIndex_fixpoint|].
  apply CleanIndex_fixpoint.
Qed.

(** X6. [GetIndexesCollection] finds or creates: afterwards the entry of
    the pair exists, with the lists it had or with two empty lists when it
    is new; every other entry is as before; an index that holds the entry
    is returned unchanged, and so is the result of a first call. *)
Theorem GetIndexesCollection_finds_or_creates (index : MarksIndex) t g t' g' :
  entry_at (GetIndexesCollection t g index) t' g' =
    (if decide (t' = t ∧ g' = g)
     then Some (default new_IndexesCollection (entry_at index t g))
     else entry_at index t' g') ∧
  (is_Some (entry_at index t g) → GetIndexesCollection t g index = index) ∧
  GetIndexesCollection t g (GetIndexesCollection t g index) =
    GetIndexesCollection t g index.
Proof.
  assert (Hlookup : ∀ (index : MarksIndex) t' g',
    entry_at (GetIndexesCollection t g index) t' g' =
    if decide (t' = t ∧ g' = g)
    then Some (default new_IndexesCollection (entry_at index t g))
    else entry_at index t' g').
  { intros idx u h.
    pose proof (entry_at_update t g id idx u h) as Hup.
    unfold update_IndexesCollection in Hup.
    assert (Hid : alter (alter (id : IndexesCollection → IndexesCollection) g) t
                    (GetIndexesCollection t g idx) = GetIndexesCollection t g idx).
    { apply map_eq. intros u'. destruct (decide (t = u')) as [<-|Hne];
        [rewrite lookup_alter_eq|by rewrite lookup_alter_ne].
      destruct (GetIndexesCollection t g idx !! t) as [tg|]; simpl; [|done].
      f_equal. apply map_eq. intros h'. destruct (decide (g = h')) as [<-|Hne];
        [rewrite lookup_alter_eq|by rewrite lookup_alter_ne].
      by destruct (tg !! g). }
    by rewrite Hid in Hup. }
  assert (Hpresent : ∀ index : MarksIndex,
    is_Some (entry_at index t g) → GetIndexesCollection t g index = index).
  { intros idx [e He]. apply entry_at_Some in He as (tg & Ht & Hg).
    unfold GetIndexesCollection. rewrite Ht, Hg. by apply insert_id. }
  split; [apply Hlookup|]. split; [apply Hpresent|].
  apply Hpresent. rewrite Hlookup, decide_True by done. by eexists.
Qed.

(** ** What a generation delivers *)

Section Delivery.
Context {World : Type}.
Implicit Types (st : UserMarkGenerator World).

Lemma loop_calls_sound st t tex groups g rd :
  (g, rd) ∈ loop_calls st t tex groups →
  g ∈ m_groupsVisibility st ∧
  ∃ idxs, (g, idxs) ∈ groups ∧
          rd = CacheUserMarks t tex (m_marks st !! g) idxs.
Proof.
  induction groups as [|[h idxs] groups IH]; simpl; [by intros ?%elem_of_nil|].
  assert (Hrest : (g, rd) ∈ loop_calls st t tex groups →
    g ∈ m_groupsVisibility st ∧
    ∃ idxs0, (g, idxs0) ∈ (h, idxs) :: groups ∧
      rd = CacheUserMarks t tex (m_marks st !! g) idxs0).
  { intros (Hv & idxs0 & Hin & Hrd)%IH. split; [done|].
    exists idxs0. split; [by right|done]. }
  case_decide as Hvis; [done|].
  intros [[= -> ->]|Hin]%elem_of_cons; [|by apply Hrest].
  split; [by destruct (decide (h ∈ m_groupsVisibility st))|].
  exists idxs. split; [by left|done].
Qed.

Lemma loop_calls_groups st t tex groups g :
  g ∈ (loop_calls st t tex groups).*1 → g ∈ groups.*1.
Proof.
  intros ([g' rd] & -> & Hin)%list_elem_of_fmap.
  apply loop_calls_sound in Hin as (_ & idxs & Hin & _).
  apply list_elem_of_fmap. by exists (g', idxs).
Qed.

Lemma loop_calls_NoDup st t tex groups :
  NoDup groups.*1 → NoDup (loop_calls st t tex groups).*1.
Proof.
  induction groups as [|[h idxs] groups IH]; simpl; [constructor|].
  intros [Hh Hnd]%NoDup_cons.
  case_decide; [by apply IH|]. simpl. apply NoDup_cons. split; [|by apply IH].
  intros Hin. by apply Hh, (loop_calls_groups st t tex).
Qed.

(** X7. A generation calls the sink at most once for a group, and exactly
    for the groups that are visible and listed under the tile; the render
    data of a call is what the geometry cache builds from the group's mark
    collection, a null reference when the group has none, and the mark
    positions stored under the tile. *)
Theorem Generate_delivers_visible_listed_groups st t tex :
  NoDup (sink_calls t tex st).*1 ∧
  (∀ g rd, (g, rd) ∈ sink_calls t tex st ↔
     g ∈ m_groupsVisibility st ∧
     ∃ e, entry_at (m_marksIndex st) t g = Some e ∧
          rd = CacheUserMarks t tex (m_marks st !! g) (m_markIndexes e)) ∧
  (∀ g e marks,
     entry_at (m_marksIndex st) t g = Some e →
     m_marks st !! g = Some marks →
     g ∈ m_groupsVisibility st →
     (g, CacheUserMarks t tex (Some marks) (m_markIndexes e)) ∈ sink_calls t tex st).
Proof.
  assert (Hin : ∀ g e, entry_at (m_marksIndex st) t g = Some e →
                 g ∈ m_groupsVisibility st →
                 (g, CacheUserMarks t tex (m_marks st !! g) (m_markIndexes e))
                   ∈ sink_calls t tex st).
  { intros g e He Hv.
    pose proof (sink_calls_for_visible st t tex g e He Hv) as Hcalls.
    assert (Hc : (g, CacheUserMarks t tex (m_marks st !! g) (m_markIndexes e))
                    ∈ calls_for g (sink_calls t tex st)).
    { rewrite Hcalls. by left. }
    unfold calls_for in Hc. by apply list_elem_of_filter in Hc as [_ ?]. }
  split; [|split].
  - rewrite sink_calls_eq. destruct (m_marksIndex st !! t) as [groups|]; [|constructor].
    apply loop_calls_NoDup, NoDup_ordered_groups.
  - intros g rd. split.
    + rewrite sink_calls_eq. unfold entry_at.
      destruct (m_marksIndex st !! t) as [groups|]; simpl; [|by intros ?%elem_of_nil].
      intros (Hv & idxs & Hg & ->)%loop_calls_sound. split; [done|].
      apply elem_of_ordered_groups in Hg. rewrite lookup_fmap in Hg.
      destruct (groups !! g) as [e|]; simpl in Hg; [|done]. injection Hg as <-.
      by exists e.
    + intros (Hv & e & He & ->). by apply Hin.
  - intros g e marks He Hm Hv. rewrite <- Hm. by apply Hin.
Qed.

(** Every group listed under some tile has a mark collection: no
    generation dereferences a null pointer. *)
Definition generation_safe st : Prop :=
  ∀ t h, is_Some (entry_at (m_marksIndex st) t h) → is_Some (m_marks st !! h).

Lemma entry_at_index_marks_listed g k (marks : UserMarksRenderCollection)
    (index : MarksIndex) t h :
  is_Some (entry_at (index_marks g k marks index) t h) →
  h = g ∨ is_Some (entry_at index t h).
Proof.
  destruct (decide (h = g)) as [->|Hne]; [by left|].
  rewrite entry_at_index_marks_ne by done. by right.
Qed.

Lemma entry_at_index_lines_listed g k (lines : UserLinesRenderCollection)
    (index : MarksIndex) t h :
  is_Some (entry_at (index_lines g k lines index) t h) →
  h = g ∨ is_Some (entry_at index t h).
Proof.
  destruct (decide (h = g)) as [->|Hne]; [by left|].
  rewrite entry_at_index_lines_ne by done. by right.
Qed.

Lemma entry_at_CleanIndex_listed (index : MarksIndex) t h :
  is_Some (entry_at (CleanIndex index) t h) → is_Some (entry_at index t h).
Proof.
  rewrite entry_at_CleanIndex. destruct (entry_at index t h); [by eexists|].
  by intros [? ?].
Qed.

Lemma UpdateMarksIndex_listed g st t h :
  is_Some (entry_at (m_marksIndex (UpdateMarksIndex g st)) t h) →
  (h = g ∧ is_Some (m_marks st !! g)) ∨ is_Some (entry_at (m_marksIndex st) t h).
Proof.
  unfold UpdateMarksIndex. destruct (m_marks st !! g) as [marks|]; unfold_setters.
  - intros [-> | Hh]%entry_at_CleanIndex_listed%entry_at_index_marks_listed.
    + left. split; [done|by eexists].
    + right. by rewrite entry_at_clear_marks, fmap_is_Some in Hh.
  - rewrite entry_at_clear_marks, fmap_is_Some. by right.
Qed.

Lemma UpdateLinesIndex_listed g st t h :
  is_Some (entry_at (m_marksIndex (UpdateLinesIndex g st)) t h) →
  (h = g ∧ is_Some (m_lines st !! g)) ∨ is_Some (entry_at (m_marksIndex st) t h).
Proof.
  unfold UpdateLinesIndex. destruct (m_lines st !! g) as [lines|]; unfold_setters.
  - intros [-> | Hh]%entry_at_CleanIndex_listed%entry_at_index_lines_listed.
    + left. split; [done|by eexists].
    + right. by rewrite entry_at_clear_lines, fmap_is_Some in Hh.
  - rewrite entry_at_clear_lines, fmap_is_Some. by right.
Qed.

Lemma std_map_insert_is_Some {A} (m : gmap GroupID A) g h a :
  is_Some (m !! h) ∨ h = g → is_Some (std_map_insert g a m !! h).
Proof.
  unfold std_map_insert. destruct (m !! g) as [b|] eqn:E.
  - intros [? | ->]; [done|by eexists].
  - intros [Hh | ->]; [|rewrite lookup_insert_eq; by eexists].
    destruct (decide (g = h)) as [->|Hne]; [rewrite lookup_insert_eq; by eexists|].
    by rewrite lookup_insert_ne.
Qed.

Lemma generation_safe_returns st t tex w :
  generation_safe st → returns (GenerateUserMarksGeometry t tex st w).
Proof. intros Hsafe. apply Generate_returns. intros g. apply Hsafe. Qed.

Lemma SetUserMarks_generation_safe g marks st :
  generation_safe st → generation_safe (SetUserMarks g marks st).
Proof.
  intros Hsafe t h. unfold SetUserMarks.
  match goal with |- context [UpdateMarksIndex g ?s] => set (st0 := s) end.
  destruct (UpdateMarksIndex_frame g st0) as (_ & -> & _).
  intros [[-> _]|Hh]%UpdateMarksIndex_listed; subst st0; unfold_setters.
  - apply std_map_insert_is_Some. by right.
  - apply std_map_insert_is_Some. left. by apply (Hsafe t).
Qed.

Lemma SetGroupVisibility_generation_safe g b st :
  generation_safe st → generation_safe (SetGroupVisibility g b st).
Proof.
  intros Hsafe t h. destruct (SetGroupVisibility_frame g b st) as (_ & -> & _ & ->).
  apply Hsafe.
Qed.

Lemma SetUserLines_generation_safe g lines st :
  generation_safe st → is_Some (m_marks st !! g) →
  generation_safe (SetUserLines g lines st).
Proof.
  intros Hsafe Hg t h. unfold SetUserLines.
  match goal with |- context [UpdateLinesIndex g ?s] => set (st0 := s) end.
  destruct (UpdateLinesIndex_frame g st0) as (_ & -> & _).
  intros [[-> _]|Hh]%UpdateLinesIndex_listed; subst st0; unfold_setters; [done|].
  by apply (Hsafe t).
Qed.

(** X8. When every group listed in the index has a mark collection, this
    is still so after [SetUserMarks] for any group, after
    [SetGroupVisibility], and after [SetUserLines] for a group that has a
    mark collection; in such a state every generation returns. *)
Theorem generation_safe_preserved st :
  generation_safe st →
  (∀ t tex w, returns (GenerateUserMarksGeometry t tex st w)) ∧
  (∀ g marks, generation_safe (SetUserMarks g marks st)) ∧
  (∀ g isVisible, generation_safe (SetGroupVisibility g isVisible st)) ∧
  (∀ g lines, is_Some (m_marks st !! g) → generation_safe (SetUserLines g lines st)).
Proof.
  intros Hsafe. split; [|split; [|split]].
  - intros t tex w. by apply generation_safe_returns.
  - intros g marks. by apply SetUserMarks_generation_safe.
  - intros g b. by apply SetGroupVisibility_generation_safe.
  - intros g lines Hg. by apply SetUserLines_generation_safe.
Qed.

(** Calls that supply marks or change the visibility. *)
Definition marks_only (op : Mutation) : Prop :=
  match op with
  | ReplaceMarks _ _ | SetVisibility _ _ => True
  | Clear _ | ReplaceLines _ _ => False
  end.

(** X9. A generator that has only received [SetUserMarks] and
    [SetGroupVisibility] calls never dereferences a null pointer: every
    generation, for every tile, returns. *)
Theorem marks_only_history_generates (flushFn : TFlushFn World) ops t tex w :
  Forall marks_only ops →
  returns (GenerateUserMarksGeometry t tex (run ops (mkGenerator flushFn ∅ ∅ ∅ ∅)) w).
Proof.
  intros Hops.
  assert (Hsafe : generation_safe (run ops (mkGenerator flushFn ∅ ∅ ∅ ∅))).
  { assert (Hinit : generation_safe (mkGenerator flushFn ∅ ∅ ∅ ∅)).
    { intros t' h [e He]. by unfold entry_at in He. }
    revert Hinit. unfold run. generalize (mkGenerator flushFn ∅ ∅ ∅ ∅).
    induction Hops as [|op ops Hop Hops IH]; intros st Hst; simpl; [done|].
    apply IH.
    destruct op as [g|g marks|g lines|g b]; simpl in *;
      [done|by apply SetUserMarks_generation_safe|done
      |by apply SetGroupVisibility_generation_safe]. }
  by apply generation_safe_returns.
Qed.

End Delivery.

(** ** Entries created by the rebuild loops *)

Lemma entry_lists (index : MarksIndex) t h e :
  entry_at index t h = Some e →
  markIndexes_at index t h = m_markIndexes e ∧
  lineIndexes_at index t h = m_lineIndexes e.
Proof. intros He. unfold markIndexes_at, lineIndexes_at. by rewrite He. Qed.

Lemma zoom_loop_marks_creates g i (mark : UserMarkRenderParams) (zs : list Z)
    (index : MarksIndex) t h :
  is_Some (entry_at
    (foldl (λ index zoomLevel,
              add_markIndex (GetTileKeyByPoint (m_pivot mark) zoomLevel) g i index)
           index zs) t h) →
  is_Some (entry_at index t h) ∨ (h = g ∧ filter (mark_hits t mark) zs ≠ []).
Proof.
  revert index. induction zs as [|z zs IH]; intros index; simpl; [by left|].
  intros [Hh|[-> Hne]]%IH.
  - unfold add_markIndex in Hh. rewrite entry_at_update in Hh.
    case_decide as Hd; [|by left]. destruct Hd as [-> ->]. right. split; [done|].
    by rewrite filter_cons_True.
  - right. split; [done|]. rewrite filter_cons. by case_decide.
Qed.

Lemma index_marks_creates g k (marks : UserMarksRenderCollection)
    (index : MarksIndex) t h :
  is_Some (entry_at (index_marks g k marks index) t h) →
  is_Some (entry_at index t h) ∨ (h = g ∧ tile_positions (mark_hits t) k marks ≠ []).
Proof.
  revert k index. induction marks as [|mark rest IH]; intros k index; simpl; [by left|].
  intros [[Hh|[-> Hne]]%zoom_loop_marks_creates|[-> Hne]]%IH.
  - by left.
  - right. split; [done|]. intros [Hnil _]%app_eq_nil.
    by apply fmap_nil_inv in Hnil.
  - right. split; [done|]. by intros [_ Hnil]%app_eq_nil.
Qed.

Lemma tile_loop_creates g j (ts : list TileKey) (index : MarksIndex) t h :
  is_Some (entry_at (foldl (add_lineIndex g j) index ts) t h) →
  is_Some (entry_at index t h) ∨ (h = g ∧ t ∈ ts).
Proof.
  revert index. induction ts as [|t0 ts IH]; intros index; simpl; [by left|].
  intros [Hh|[-> Hin]]%IH.
  - unfold add_lineIndex in Hh. rewrite entry_at_update in Hh.
    case_decide as Hd; [|by left]. destruct Hd as [-> ->]. right. split; [done|].
    by left.
  - right. split; [done|]. by right.
Qed.

Lemma zoom_loop_lines_creates g j (line : UserLineRenderParams) (zs : list Z)
    (index : MarksIndex) t h :
  is_Some (entry_at
    (foldl (λ index zoomLevel,
              foldl (add_lineIndex g j) index (elements (line_tiles line zoomLevel)))
           index zs) t h) →
  is_Some (entry_at index t h) ∨ (h = g ∧ filter (line_hits t line) zs ≠ []).
Proof.
  revert index. induction zs as [|z zs IH]; intros index; simpl; [by left|].
  intros [[Hh|[-> Hin]]%tile_loop_creates|[-> Hne]]%IH.
  - by left.
  - right. split; [done|]. apply elem_of_elements in Hin.
    by rewrite filter_cons_True.
  - right. split; [done|]. rewrite filter_cons. by case_decide.
Qed.

Lemma index_lines_creates g k (lines : UserLinesRenderCollection)
    (index : MarksIndex) t h :
  is_Some (entry_at (index_lines g k lines index) t h) →
  is_Some (entry_at index t h) ∨ (h = g ∧ tile_positions (line_hits t) k lines ≠ []).
Proof.
  revert k index. induction lines as [|line rest IH]; intros k index; simpl; [by left|].
  intros [[Hh|[-> Hne]]%zoom_loop_lines_creates|[-> Hne]]%IH.
  - by left.
  - right. split; [done|]. intros [Hnil _]%app_eq_nil.
    by apply fmap_nil_inv in Hnil.
  - right. split; [done|]. by intros [_ Hnil]%app_eq_nil.
Qed.

(** [CleanIndex] prunes an index whose listed entries all hold a position. *)
Lemma CleanIndex_prunes_listed (index : MarksIndex) :
  (∀ t h, is_Some (entry_at index t h) →
          markIndexes_at index t h ≠ [] ∨ lineIndexes_at index t h ≠ []) →
  index_pruned (CleanIndex index).
Proof.
  intros Hlisted.
  assert (Hentries : entries_pruned index).
  { intros t h e He [Hm Hl]. destruct (entry_lists index t h e He) as [Hm' Hl'].
    destruct (Hlisted t h ltac:(by eexists)) as [Hne|Hne]; apply Hne; congruence. }
  split; [|apply CleanIndex_entries_pruned].
  intros t tg Ht. rewrite (CleanIndex_on_entries_pruned _ Hentries) in Ht.
  by apply map_lookup_filter_Some in Ht as [_ ?].
Qed.

Lemma pruned_listed (index : MarksIndex) t h :
  index_pruned index → is_Some (entry_at index t h) →
  markIndexes_at index t h ≠ [] ∨ lineIndexes_at index t h ≠ [].
Proof.
  intros [_ Hentries] [e He]. destruct (entry_lists index t h e He) as [-> ->].
  specialize (Hentries t h e He). unfold indexes_empty in Hentries.
  destruct (m_markIndexes e); [|by left]. destruct (m_lineIndexes e); [|by right].
  by destruct Hentries.
Qed.

Section Pruning.
Context {World : Type}.
Implicit Types (st : UserMarkGenerator World).

Lemma SetUserMarks_index g marks st :
  m_marksIndex (SetUserMarks g marks st) =
  CleanIndex (index_marks g 0 (default marks (m_marks st !! g))
                (clear_group_markIndexes g (m_marksIndex st))).
Proof.
  unfold SetUserMarks, UpdateMarksIndex. unfold_setters.
  rewrite std_map_insert_lookup, decide_True by done. done.
Qed.

Lemma SetUserLines_index g lines st :
  m_marksIndex (SetUserLines g lines st) =
  CleanIndex (index_lines g 0 (default lines (m_lines st !! g))
                (clear_group_lineIndexes g (m_marksIndex st))).
Proof.
  unfold SetUserLines, UpdateLinesIndex. unfold_setters.
  rewrite std_map_insert_lookup, decide_True by done. done.
Qed.

Lemma SetUserMarks_pruned g marks st :
  index_consistent st → index_pruned (m_marksIndex st) →
  index_pruned (m_marksIndex (SetUserMarks g marks st)).
Proof.
  intros Hcons Hpruned. rewrite SetUserMarks_index. apply CleanIndex_prunes_listed.
  intros t h Hh.
  rewrite markIndexes_at_index_marks, lineIndexes_at_index_marks,
    markIndexes_at_clear_marks, lineIndexes_at_clear_marks.
  apply index_marks_creates in Hh as [Hh|[-> Hne]].
  - rewrite entry_at_clear_marks, fmap_is_Some in Hh.
    destruct (pruned_listed _ t h Hpruned Hh) as [Hm|Hl]; [|by right].
    left. destruct (decide (h = g)) as [->|Hneq]; [|by rewrite app_nil_r].
    simpl. destruct (Hcons t g) as [Hpos _]. rewrite Hpos in Hm.
    destruct (m_marks st !! g) as [marks0|]; simpl in *; done.
  - left. by rewrite !decide_True by done.
Qed.

Lemma SetUserLines_pruned g lines st :
  index_consistent st → index_pruned (m_marksIndex st) →
  index_pruned (m_marksIndex (SetUserLines g lines st)).
Proof.
  intros Hcons Hpruned. rewrite SetUserLines_index. apply CleanIndex_prunes_listed.
  intros t h Hh.
  rewrite markIndexes_at_index_lines, lineIndexes_at_index_lines,
    markIndexes_at_clear_lines, lineIndexes_at_clear_lines.
  apply index_lines_creates in Hh as [Hh|[-> Hne]].
  - rewrite entry_at_clear_lines, fmap_is_Some in Hh.
    destruct (pruned_listed _ t h Hpruned Hh) as [Hm|Hl]; [by left|].
    right. destruct (decide (h = g)) as [->|Hneq]; [|by rewrite app_nil_r].
    simpl. destruct (Hcons t g) as [_ Hpos]. rewrite Hpos in Hl.
    destruct (m_lines st !! g) as [lines0|]; simpl in *; done.
  - right. by rewrite !decide_True by done.
Qed.

(** The calls that clear a group. *)
Definition clears (op : Mutation) : Prop :=
  match op with
  | Clear _ => True
  | ReplaceMarks _ _ | ReplaceLines _ _ | SetVisibility _ _ => False
  end.

(** X10. As long as a new generator receives no [ClearUserMarks], its
    index has no leftovers after every call: no tile with an empty group
    map and no entry with two empty lists. *)
Theorem index_pruned_without_Clear (flushFn : TFlushFn World) ops :
  Forall (λ op, ¬ clears op) ops →
  index_pruned (m_marksIndex (run ops (mkGenerator flushFn ∅ ∅ ∅ ∅))).
Proof.
  intros Hops.
  assert (Hinit : index_consistent (mkGenerator flushFn ∅ ∅ ∅ ∅) ∧
                  index_pruned (m_marksIndex (mkGenerator flushFn ∅ ∅ ∅ ∅))).
  { split; [by intros t g|]. split.
    - intros t tg Ht. simpl in Ht. by rewrite lookup_empty in Ht.
    - intros t g e He. by unfold entry_at in He. }
  revert Hinit. unfold run. generalize (mkGenerator flushFn ∅ ∅ ∅ ∅).
  induction Hops as [|op ops Hop Hops IH]; intros st [Hcons Hpruned]; simpl; [done|].
  apply IH. split; [by apply mutate_consistent|].
  destruct op as [g|g marks|g lines|g b]; simpl in *.
  - by destruct Hop.
  - by apply SetUserMarks_pruned.
  - by apply SetUserLines_pruned.
  - by destruct b.
Qed.

End Pruning.

(** ** How the mutating calls compose *)

Section Composition.
Context {World : Type}.
Implicit Types (st : UserMarkGenerator World).

(** The group a call is made for. *)
Definition target (op : Mutation) : GroupID :=
  match op with
  | Clear g | ReplaceMarks g _ | ReplaceLines g _ | SetVisibility g _ => g
  end.

Lemma ClearUserMarks_positions g st t h :
  markIndexes_at (m_marksIndex (ClearUserMarks g st)) t h =
    (if decide (h = g) then [] else markIndexes_at (m_marksIndex st) t h) ∧
  lineIndexes_at (m_marksIndex (ClearUserMarks g st)) t h =
    (if decide (h = g) then [] else lineIndexes_at (m_marksIndex st) t h).
Proof.
  rewrite ClearUserMarks_eq. simpl.
  by rewrite markIndexes_at_clear_lines, markIndexes_at_clear_marks,
    lineIndexes_at_clear_lines, lineIndexes_at_clear_marks.
Qed.

Lemma SetUserMarks_positions g marks st t h :
  markIndexes_at (m_marksIndex (SetUserMarks g marks st)) t h =
    (if decide (h = g)
     then tile_positions (mark_hits t) 0 (default marks (m_marks st !! g))
     else markIndexes_at (m_marksIndex st) t h) ∧
  lineIndexes_at (m_marksIndex (SetUserMarks g marks st)) t h =
    lineIndexes_at (m_marksIndex st) t h.
Proof.
  rewrite SetUserMarks_index, markIndexes_at_CleanIndex, markIndexes_at_index_marks,
    markIndexes_at_clear_marks, lineIndexes_at_CleanIndex, lineIndexes_at_index_marks,
    lineIndexes_at_clear_marks.
  split; [|done]. case_decide; [done|]. by rewrite app_nil_r.
Qed.

Lemma SetUserLines_positions g lines st t h :
  lineIndexes_at (m_marksIndex (SetUserLines g lines st)) t h =
    (if decide (h = g)
     then tile_positions (line_hits t) 0 (default lines (m_lines st !! g))
     else lineIndexes_at (m_marksIndex st) t h) ∧
  markIndexes_at (m_marksIndex (SetUserLines g lines st)) t h =
    markIndexes_at (m_marksIndex st) t h.
Proof.
  rewrite SetUserLines_index, markIndexes_at_CleanIndex, markIndexes_at_index_lines,
    markIndexes_at_clear_lines, lineIndexes_at_CleanIndex, lineIndexes_at_index_lines,
    lineIndexes_at_clear_lines.
  split; [|done]. case_decide; [done|]. by rewrite app_nil_r.
Qed.

Lemma SetUserMarks_frame g marks st :
  m_flushFn (SetUserMarks g marks st) = m_flushFn st ∧
  m_marks (SetUserMarks g marks st) = std_map_insert g marks (m_marks st) ∧
  m_lines (SetUserMarks g marks st) = m_lines st ∧
  m_groupsVisibility (SetUserMarks g marks st) = m_groupsVisibility st.
Proof.
  unfold SetUserMarks.
  match goal with |- context [UpdateMarksIndex g ?s] => set (st0 := s) end.
  by destruct (UpdateMarksIndex_frame g st0) as (-> & -> & -> & ->).
Qed.

Lemma SetUserLines_frame g lines st :
  m_flushFn (SetUserLines g lines st) = m_flushFn st ∧
  m_marks (SetUserLines g lines st) = m_marks st ∧
  m_lines (SetUserLines g lines st) = std_map_insert g lines (m_lines st) ∧
  m_groupsVisibility (SetUserLines g lines st) = m_groupsVisibility st.
Proof.
  unfold SetUserLines.
  match goal with |- context [UpdateLinesIndex g ?s] => set (st0 := s) end.
  by destruct (UpdateLinesIndex_frame g st0) as (-> & -> & -> & ->).
Qed.

(** X11. A call for one group changes nothing that belongs to another
    group: its collections, its visibility and the positions stored for it
    under every tile are as before. [SetUserMarks] changes neither line
    collections nor line positions, and [SetUserLines] neither mark
    collections nor mark positions, of any group. *)
Theorem mutation_leaves_other_groups st op h :
  h ≠ target op →
  (m_marks (mutate st op) !! h = m_marks st !! h ∧
   m_lines (mutate st op) !! h = m_lines st !! h ∧
   (h ∈ m_groupsVisibility (mutate st op) ↔ h ∈ m_groupsVisibility st) ∧
   ∀ t, markIndexes_at (m_marksIndex (mutate st op)) t h =
          markIndexes_at (m_marksIndex st) t h ∧
        lineIndexes_at (m_marksIndex (mutate st op)) t h =
          lineIndexes_at (m_marksIndex st) t h) ∧
  (∀ g marks g' t,
     m_lines (SetUserMarks g marks st) = m_lines st ∧
     lineIndexes_at (m_marksIndex (SetUserMarks g marks st)) t g' =
       lineIndexes_at (m_marksIndex st) t g') ∧
  (∀ g lines g' t,
     m_marks (SetUserLines g lines st) = m_marks st ∧
     markIndexes_at (m_marksIndex (SetUserLines g lines st)) t g' =
       markIndexes_at (m_marksIndex st) t g').
Proof.
  intros Hne. split; [|split].
  - destruct op as [g|g marks|g lines|g b]; simpl in *.
    + rewrite ClearUserMarks_eq. simpl. rewrite !lookup_delete_ne by done.
      do 2 (split; [done|]). split.
      * rewrite elem_of_difference, elem_of_singleton. split; [by intros [? _]|done].
      * intros t.
        destruct (ClearUserMarks_positions g st t h) as [Hm Hl].
        rewrite ClearUserMarks_eq in Hm, Hl. simpl in Hm, Hl.
        by rewrite Hm, Hl, !decide_False by done.
    + destruct (SetUserMarks_frame g marks st) as (_ & -> & -> & ->).
      rewrite std_map_insert_ne by done. do 3 (split; [done|]). intros t.
      destruct (SetUserMarks_positions g marks st t h) as [-> ->].
      by rewrite decide_False by done.
    + destruct (SetUserLines_frame g lines st) as (_ & -> & -> & ->).
      rewrite std_map_insert_ne by done. do 3 (split; [done|]). intros t.
      destruct (SetUserLines_positions g lines st t h) as [-> ->].
      by rewrite decide_False by done.
    + destruct (SetGroupVisibility_frame g b st) as (_ & -> & -> & ->).
      do 2 (split; [done|]). split; [|done].
      destruct b; unfold SetGroupVisibility; unfold_setters.
      * rewrite elem_of_union, elem_of_singleton. split; [by intros [?|?]|by right].
      * rewrite elem_of_difference, elem_of_singleton. split; [by intros [? _]|done].
  - intros g marks g' t. destruct (SetUserMarks_frame g marks st) as (_ & _ & -> & _).
    by destruct (SetUserMarks_positions g marks st t g') as [_ ->].
  - intros g lines g' t. destruct (SetUserLines_frame g lines st) as (_ & -> & _ & _).
    by destruct (SetUserLines_positions g lines st t g') as [_ ->].
Qed.

(** X12. [ClearUserMarks] followed by [SetUserMarks] and [SetUserLines]
    replaces what the generator holds for the group, whatever it held
    before: the collections are the supplied ones, the positions stored
    under every tile are those of the supplied collections, and the group
    is not visible. *)
Theorem Clear_then_Set_replaces st g marks lines t :
  let st' := SetUserLines g lines (SetUserMarks g marks (ClearUserMarks g st)) in
  m_marks st' !! g = Some marks ∧
  m_lines st' !! g = Some lines ∧
  markIndexes_at (m_marksIndex st') t g = tile_positions (mark_hits t) 0 marks ∧
  lineIndexes_at (m_marksIndex st') t g = tile_positions (line_hits t) 0 lines ∧
  g ∉ m_groupsVisibility st'.
Proof.
  intros st'. subst st'.
  set (st1 := ClearUserMarks g st). set (st2 := SetUserMarks g marks st1).
  assert (Hm1 : m_marks st1 !! g = None).
  { subst st1. rewrite ClearUserMarks_eq. simpl. apply lookup_delete_eq. }
  assert (Hl1 : m_lines st1 !! g = None).
  { subst st1. rewrite ClearUserMarks_eq. simpl. apply lookup_delete_eq. }
  assert (Hv1 : g ∉ m_groupsVisibility st1).
  { subst st1. rewrite ClearUserMarks_eq. simpl.
    rewrite elem_of_difference, elem_of_singleton. by intros [_ ?]. }
  destruct (SetUserMarks_frame g marks st1) as (_ & Hm2 & Hl2 & Hv2). fold st2 in Hm2, Hl2, Hv2.
  destruct (SetUserLines_frame g lines st2) as (_ & -> & -> & ->).
  destruct (SetUserLines_positions g lines st2 t g) as [-> ->].
  destruct (SetUserMarks_positions g marks st1 t g) as [Hpos _]. fold st2 in Hpos.
  rewrite Hpos, Hm2, Hl2, Hv2, !decide_True, Hm1, Hl1 by done. simpl.
  split; [by apply std_map_insert_fresh|]. split; [by apply std_map_insert_fresh|done].
Qed.

Lemma SetGroupVisibility_twice g b b' st :
  SetGroupVisibility g b (SetGroupVisibility g b' st) = SetGroupVisibility g b st.
Proof.
  destruct b, b'; unfold SetGroupVisibility; unfold_setters; f_equal;
    apply set_eq; intros h;
    rewrite ?elem_of_union, ?elem_of_difference, ?elem_of_union, ?elem_of_difference,
      ?elem_of_singleton; destruct (decide (h = g)); tauto.
Qed.

Lemma SetGroupVisibility_toggle g b flags st :
  SetGroupVisibility g b (toggle g flags st) = SetGroupVisibility g b st.
Proof.
  unfold toggle. revert st. induction flags as [|b' flags IH]; intros st; simpl; [done|].
  by rewrite IH, SetGroupVisibility_twice.
Qed.

(** X13. Of several [SetGroupVisibility] calls for a group the last one
    decides: the state is the one a single call with the last flag gives,
    and the group is visible exactly when that flag is true. Calls for
    different groups commute. *)
Theorem SetGroupVisibility_last_call_wins st g flags isVisible :
  toggle g (flags ++ [isVisible]) st = SetGroupVisibility g isVisible st ∧
  (g ∈ m_groupsVisibility (SetGroupVisibility g isVisible st) ↔ isVisible = true) ∧
  (∀ h isVisible', h ≠ g →
     SetGroupVisibility g isVisible (SetGroupVisibility h isVisible' st) =
     SetGroupVisibility h isVisible' (SetGroupVisibility g isVisible st)).
Proof.
  split; [|split].
  - unfold toggle. rewrite foldl_snoc. apply SetGroupVisibility_toggle.
  - destruct isVisible; unfold SetGroupVisibility; unfold_setters.
    + rewrite elem_of_union, elem_of_singleton. split; [done|]. by left.
    + rewrite elem_of_difference, elem_of_singleton. split; [by intros [_ ?]|done].
  - intros h b' Hne.
    destruct isVisible, b'; unfold SetGroupVisibility; unfold_setters; f_equal;
      apply set_eq; intros x;
      rewrite ?elem_of_union, ?elem_of_difference, ?elem_of_union, ?elem_of_difference,
        ?elem_of_singleton; destruct (decide (x = g)), (decide (x = h)); intuition congruence.
Qed.

(** X14. For a group whose mark collection a generator already holds,
    [SetUserMarks] does not take the supplied collection: [insert] leaves
    the stored one in place. In a state reached from a new generator,
    collections, visibility and the positions stored for every group under
    every tile are as before the call; the same holds for [SetUserLines]. *)
Theorem Set_on_held_collection (flushFn : TFlushFn World) ops g :
  let st := run ops (mkGenerator flushFn ∅ ∅ ∅ ∅) in
  (∀ held marks, m_marks st !! g = Some held →
     let st' := SetUserMarks g marks st in
     m_marks st' = m_marks st ∧ m_lines st' = m_lines st ∧
     m_groupsVisibility st' = m_groupsVisibility st ∧
     ∀ t h, markIndexes_at (m_marksIndex st') t h = markIndexes_at (m_marksIndex st) t h ∧
            lineIndexes_at (m_marksIndex st') t h = lineIndexes_at (m_marksIndex st) t h) ∧
  (∀ held lines, m_lines st !! g = Some held →
     let st' := SetUserLines g lines st in
     m_marks st' = m_marks st ∧ m_lines st' = m_lines st ∧
     m_groupsVisibility st' = m_groupsVisibility st ∧
     ∀ t h, markIndexes_at (m_marksIndex st') t h = markIndexes_at (m_marksIndex st) t h ∧
            lineIndexes_at (m_marksIndex st') t h = lineIndexes_at (m_marksIndex st) t h).
Proof.
  intros st. split.
  - intros held marks Hheld st'. subst st'.
    destruct (SetUserMarks_frame g marks st) as (_ & -> & -> & ->).
    rewrite (std_map_insert_present _ _ held) by done. do 3 (split; [done|]).
    intros t h. destruct (SetUserMarks_positions g marks st t h) as [-> ->].
    split; [|done]. case_decide as Hh; [|done]. subst h.
    destruct (new_generator_consistent flushFn ops t g) as [Hpos _]. fold st in Hpos.
    by rewrite Hpos, Hheld.
  - intros held lines Hheld st'. subst st'.
    destruct (SetUserLines_frame g lines st) as (_ & -> & -> & ->).
    rewrite (std_map_insert_present _ _ held) by done. do 3 (split; [done|]).
    intros t h. destruct (SetUserLines_positions g lines st t h) as [-> ->].
    split; [done|]. case_decide as Hh; [|done]. subst h.
    destruct (new_generator_consistent flushFn ops t g) as [_ Hpos]. fold st in Hpos.
    by rewrite Hpos, Hheld.
Qed.

(** X15. [ClearUserMarks] erases the group's two collections and its
    visibility and empties the group's two lists under every tile, but it
    removes no entry and no tile from the index: the pairs of tile and
    group that the index lists are the same before and after. *)
Theorem ClearUserMarks_empties_without_removing st g t h :
  let st' := ClearUserMarks g st in
  m_marks st' !! g = None ∧
  m_lines st' !! g = None ∧
  (g ∉ m_groupsVisibility st') ∧
  markIndexes_at (m_marksIndex st') t g = [] ∧
  lineIndexes_at (m_marksIndex st') t g = [] ∧
  (is_Some (entry_at (m_marksIndex st') t h) ↔ is_Some (entry_at (m_marksIndex st) t h)) ∧
  (is_Some (m_marksIndex st' !! t) ↔ is_Some (m_marksIndex st !! t)).
Proof.
  intros st'. subst st'.
  destruct (ClearUserMarks_positions g st t g) as [Hm Hl].
  rewrite decide_True in Hm, Hl by done.
  rewrite ClearUserMarks_eq in *. simpl in *. rewrite !lookup_delete_eq.
  do 2 (split; [done|]). split.
  { rewrite elem_of_difference, elem_of_singleton. by intros [_ ?]. }
  do 2 (split; [done|]). split.
  - by rewrite entry_at_clear_lines, entry_at_clear_marks, !fmap_is_Some.
  - unfold clear_group_lineIndexes, clear_group_markIndexes.
    by rewrite !lookup_fmap, !fmap_is_Some.
Qed.

End Composition.

End Generator.

Arguments mkGenerator {_ _ _ _ _ _ _}.
Arguments m_flushFn {_ _ _ _ _ _ _}.
Arguments m_marks {_ _ _ _ _ _ _}.
Arguments m_lines {_ _ _ _ _ _ _}.
Arguments m_groupsVisibility {_ _ _ _ _ _ _}.
Arguments m_marksIndex {_ _ _ _ _ _ _}.

(** * A concrete map

    Points are the cells 0..7 of a strip. At zoom level 3 every cell is a
    tile, at zoom level 2 two neighbouring cells share a tile, at zoom
    level 1 four of them; a tile key is the number of the tile and its
    zoom level. *)
Module Scenario.

Definition Tile : Type := N * Z.

Definition TileOf (p : N) (zoomLevel : Z) : Tile :=
  ((p / 2 ^ Z.to_N (3 - zoomLevel))%N, zoomLevel).

Definition UpperScale : Z := 3.

Record Mark := mkMark { pivot : N }.
Record Line := mkLine { points : list N }.

(** The render data names the call of the geometry cache that built it,
    from a mark collection or through a null reference. *)
Inductive RenderData : Type :=
  | MarksGeometry (tileKey : Tile) (renderParams : list Mark) (indexes : list N)
  | NullMarksGeometry (tileKey : Tile) (indexes : list N).

Definition Cache (tileKey : Tile) (textures : unit)
    (renderParams : option (list Mark)) (indexes : list N) : RenderData :=
  match renderParams with
  | Some marks => MarksGeometry tileKey marks indexes
  | None => NullMarksGeometry tileKey indexes
  end.

Definition Calls : Type := list (N * RenderData).

Abbreviation Generator :=
  (UserMarkGenerator (TileKey := Tile) (UserMarkRenderParams := Mark)
     (UserLineRenderParams := Line) (TUserMarksRenderData := RenderData) Calls).

Definition sink : N → RenderData → Calls → Calls :=
  λ groupId renderData calls, calls ++ [(groupId, renderData)].

Definition fresh : Generator := mkGenerator sink ∅ ∅ ∅ ∅.

Definition play (ops : list Mutation) : Generator :=
  run pivot points TileOf UpperScale ops fresh.

Definition generate (tileKey : Tile) (st : Generator) : Outcome Generator Calls :=
  GenerateUserMarksGeometry Cache tileKey () st [].

Definition calls (tileKey : Tile) (st : Generator) : Calls :=
  sink_calls Cache tileKey () st.

Definition P : Mark := mkMark 1.
Definition Q : Mark := mkMark 6.
Definition L : Line := mkLine [1; 6]%N.

Definition T1 : Tile := TileOf 1 1.
Definition T5 : Tile := TileOf 6 1.

Example constructed : UserMarkGenerator_new (Some sink) = Constructed fresh.
Proof. reflexivity. Qed.

(** The example of the specification: group 7 receives a mark at [P], is
    made visible and is generated for the tiles of [P]. *)
Example scenario_marks :
  let st := play [ReplaceMarks 7 [P]] in
  let st' := play [ReplaceMarks 7 [P]; SetVisibility 7 true] in
  calls T1 st = [] ∧
  calls T1 st' = [(7%N, MarksGeometry T1 [P] [0%N])] ∧
  calls (TileOf 1 2) st' = [(7%N, MarksGeometry (TileOf 1 2) [P] [0%N])] ∧
  calls T5 st' = [].
Proof. vm_compute. repeat split. Qed.

(** C1. The second [SetUserMarks] of a group does not store its
    collection: [insert] finds the key of the first one. The index is
    rebuilt from the first collection, and the tile of the first mark
    still delivers for the group. *)
Theorem second_SetUserMarks_keeps_first_collection :
  let st := play [ReplaceMarks 7 [P]; SetVisibility 7 true; ReplaceMarks 7 [Q]] in
  m_marks st !! 7%N = Some [P] ∧
  markIndexes_at (m_marksIndex st) T1 7 = [0%N] ∧
  markIndexes_at (m_marksIndex st) T5 7 = [] ∧
  calls T1 st = [(7%N, MarksGeometry T1 [P] [0%N])] ∧
  calls T5 st = [].
Proof. vm_compute. repeat split. Qed.

(** C2. [ClearUserMarks] returns from both index updates before
    [CleanIndex]: the entries of the group stay, with two empty lists. A
    later [CleanIndex] erases them after its pass over the tiles, and
    leaves their tiles with an empty group map. *)
Theorem CleanIndex_leaves_empty_entries :
  let st := play [ReplaceMarks 7 [P]; Clear 7] in
  let st' := play [ReplaceMarks 7 [P]; Clear 7; ReplaceMarks 7 [Q]] in
  entry_at (m_marksIndex st) T1 7 = Some (mkIndexes [] []) ∧
  m_marksIndex st' !! T1 = Some ∅.
Proof. vm_compute. repeat split. Qed.

(** C3. After [ClearUserMarks] the tiles of the group still list it, and
    a generation for such a tile dereferences the erased mark collection
    and calls the sink for the group. *)
Theorem ClearUserMarks_leaves_group_listed :
  let st := play [ReplaceMarks 7 [P]; Clear 7; SetVisibility 7 true] in
  m_marks st !! 7%N = None ∧
  entry_at (m_marksIndex st) T1 7 = Some (mkIndexes [] []) ∧
  generate T1 st = NullDereference [(7%N, NullMarksGeometry T1 [])].
Proof. vm_compute. repeat split. Qed.

(** Generations for a tile that lists a group without mark collection:
    the group is indexed through a line, or its entries are left over
    from [ClearUserMarks]; it is invisible in the first two states and
    visible in the last two. *)
Example null_collection_generations :
  generate T1 (play [ReplaceLines 7 [L]; SetVisibility 7 false])
    = NullDereference [] ∧
  generate T1 (play [ReplaceMarks 7 [P]; Clear 7; SetVisibility 7 false])
    = NullDereference [] ∧
  generate T1 (play [ReplaceLines 7 [L]; SetVisibility 7 true])
    = NullDereference [(7%N, NullMarksGeometry T1 [])] ∧
  generate T1 (play [ReplaceLines 5 [L]; ReplaceMarks 7 [P]; SetVisibility 7 true])
    = NullDereference [(7%N, MarksGeometry T1 [P] [0%N])].
Proof. vm_compute. repeat split. Qed.

(** C4 does not hold: group 7 is visible and has a line collection, and
    [T5] stores a line position for it. The generation for [T5] returns
    after one call of the sink, with geometry cached from the mark
    collection and the empty list of mark positions stored under [T5]. A
    second line changes the line collection and the stored line positions,
    and not the call. *)
Lemma Generate_ignores_lines :
  let st := play [ReplaceMarks 7 [P]; ReplaceLines 7 [L]; SetVisibility 7 true] in
  let st' := play [ReplaceMarks 7 [P]; ReplaceLines 7 [L; L]; SetVisibility 7 true] in
  (7%N ∈ m_groupsVisibility st ∧
   m_lines st !! 7%N = Some [L] ∧
   lineIndexes_at (m_marksIndex st) T5 7 = [0%N]) ∧
  (7%N ∈ m_groupsVisibility st' ∧
   m_lines st' !! 7%N = Some [L; L] ∧
   lineIndexes_at (m_marksIndex st') T5 7 = [0%N; 1%N]) ∧
  generate T5 st = Done st [(7%N, MarksGeometry T5 [P] [])] ∧
  generate T5 st' = Done st' [(7%N, MarksGeometry T5 [P] [])].
Proof.
  intros st st'. split; [|split].
  - split; [|by vm_compute]. refine (bool_decide_unpack _ _). by vm_compute.
  - split; [|by vm_compute]. refine (bool_decide_unpack _ _). by vm_compute.
  - by vm_compute.
Qed.

(** ** The general theorems at concrete inputs *)

Lemma Generate_reads_marks_only_witness :
  let st := play [ReplaceMarks 7 [P]; ReplaceLines 7 [L]; SetVisibility 7 true] in
  let st' := play [ReplaceMarks 7 [P]; ReplaceLines 7 [L; L]; SetVisibility 7 true] in
  let e := mkIndexes [0%N] [0%N] in
  (entry_at (m_marksIndex st) T1 7 = Some e ∧
   m_marks st !! 7%N = Some [P] ∧
   7%N ∈ m_groupsVisibility st ∧
   m_marks st' = m_marks st ∧
   m_groupsVisibility st' = m_groupsVisibility st ∧
   mark_positions (m_marksIndex st') = mark_positions (m_marksIndex st)) ∧
  calls_for 7 (calls T1 st) = [(7%N, MarksGeometry T1 [P] [0%N])] ∧
  calls T1 st' = calls T1 st ∧
  ∀ w, returns (GenerateUserMarksGeometry Cache T1 () st' w) ↔
       returns (GenerateUserMarksGeometry Cache T1 () st w).
Proof.
  intros st st' e.
  assert (H1 : entry_at (m_marksIndex st) T1 7 = Some e) by (by vm_compute).
  assert (H2 : m_marks st !! 7%N = Some [P]) by (by vm_compute).
  assert (H3 : 7%N ∈ m_groupsVisibility st).
  { refine (bool_decide_unpack _ _). by vm_compute. }
  assert (H5 : m_marks st' = m_marks st) by (by vm_compute).
  assert (H6 : m_groupsVisibility st' = m_groupsVisibility st) by (by vm_compute).
  assert (H7 : mark_positions (m_marksIndex st') = mark_positions (m_marksIndex st))
    by (by vm_compute).
  split; [done|].
  exact (Generate_reads_marks_only Cache st st' T1 () 7 e [P] H1 H2 H3 H5 H6 H7).
Defined.

Lemma SetUserMarks_indexes_and_delivers_witness :
  let st := play [ReplaceLines 5 [L]] in
  let st1 := play [ReplaceLines 5 [L]; ReplaceMarks 7 [P]; SetVisibility 7 true] in
  let st2 := play [ReplaceLines 5 [L]; SetVisibility 7 true; ReplaceMarks 7 [P]] in
  (m_marks st !! 7%N = None ∧
   (N.of_nat (length [P]) ≤ 2 ^ 32)%N ∧
   [P] !! 0 = Some P ∧
   (1 ≤ 1 ≤ UpperScale)%Z) ∧
  ∃ e, entry_at (m_marksIndex st1) T1 7 = Some e ∧
       0%N ∈ m_markIndexes e ∧
       calls_for 7 (calls T1 st1) = [(7%N, MarksGeometry T1 [P] (m_markIndexes e))] ∧
       calls_for 7 (calls T1 st2) = [(7%N, MarksGeometry T1 [P] (m_markIndexes e))].
Proof.
  intros st st1 st2.
  assert (H1 : m_marks st !! 7%N = None) by (by vm_compute).
  assert (H2 : (N.of_nat (length [P]) ≤ 2 ^ 32)%N) by (by vm_compute).
  assert (H3 : [P] !! 0 = Some P) by done.
  assert (H4 : (1 ≤ 1 ≤ UpperScale)%Z) by (unfold UpperScale; lia).
  split; [done|].
  destruct (SetUserMarks_indexes_and_delivers pivot TileOf UpperScale Cache
              st 7 [P] 0 P 1 () H1 H2 H3 H4)
    as (e & He & Hin & _ & Hcalls1 & Hcalls2 & _).
  exists e. split; [exact He|]. split; [exact Hin|].
  split; [exact Hcalls1|exact Hcalls2].
Defined.

Lemma SetUserLines_registers_vertex_tiles_witness :
  let index := m_marksIndex (play [ReplaceLines 7 [L]]) in
  (m_lines fresh !! 7%N = None ∧
   (N.of_nat (length [L]) ≤ 2 ^ 32)%N ∧
   [L] !! 0 = Some L) ∧
  0%N ∈ lineIndexes_at index (TileOf 1 3) 7 ∧
  0%N ∈ lineIndexes_at index (TileOf 6 3) 7 ∧
  (0%N ∉ lineIndexes_at index (TileOf 3 3) 7) ∧
  length (filter (λ x, x = 0%N) (lineIndexes_at index (TileOf 1 3) 7)) ≤ 1.
Proof.
  intros index.
  assert (H1 : m_lines fresh !! 7%N = None) by done.
  assert (H2 : (N.of_nat (length [L]) ≤ 2 ^ 32)%N) by (by vm_compute).
  assert (H3 : [L] !! 0 = Some L) by done.
  pose proof (λ t, SetUserLines_registers_vertex_tiles points TileOf UpperScale
                     fresh 7 [L] 0 L t H1 H2 H3) as Hthm.
  split; [done|]. split; [|split; [|split]].
  - apply (Hthm (TileOf 1 3)). exists 3%Z, 1%N. split; [done|].
    split; [|done]. simpl. apply elem_of_cons. by left.
  - apply (Hthm (TileOf 6 3)). exists 3%Z, 6%N. split; [done|].
    split; [|done]. simpl. apply elem_of_cons. right. apply elem_of_cons. by left.
  - intros Hin. apply (Hthm (TileOf 3 3)) in Hin as (z & v & _ & Hv & Heq).
    simpl in Hv. unfold TileOf in Heq. injection Heq as Hcell <-.
    apply elem_of_cons in Hv as [->|Hv]; [by vm_compute in Hcell|].
    apply elem_of_cons in Hv as [->|Hv]; [by vm_compute in Hcell|].
    by apply elem_of_nil in Hv.
  - apply (Hthm (TileOf 1 3)). intros p q z z' Heq. unfold TileOf in Heq.
    by injection Heq.
Defined.

Lemma absent_inputs_are_no_ops_witness :
  let st := play [ReplaceMarks 5 [P]] in
  (m_marksIndex st !! TileOf 6 3 = None ∧ never_populated 7 st ∧
   7%N ∉ m_groupsVisibility st) ∧
  generate (TileOf 6 3) st = Done st [] ∧
  play [ReplaceMarks 5 [P]; Clear 7] = st ∧
  play [ReplaceMarks 5 [P]; SetVisibility 7 false] = st ∧
  calls T1 (play [ReplaceMarks 5 [P]; SetVisibility 7 true]) = calls T1 st ∧
  play [ReplaceMarks 5 [P]; Clear 7; Clear 7] = play [ReplaceMarks 5 [P]; Clear 7].
Proof.
  intros st.
  assert (H1 : m_marksIndex st !! TileOf 6 3 = None) by (by vm_compute).
  assert (H2 : never_populated 7 st).
  { apply (run_never_populated pivot points TileOf UpperScale).
    repeat constructor. simpl. discriminate. }
  assert (H3 : 7%N ∉ m_groupsVisibility st).
  { refine (bool_decide_unpack _ _). by vm_compute. }
  destruct (absent_inputs_are_no_ops pivot points TileOf UpperScale Cache
              st 7 (TileOf 6 3) () []) as (Hgen & Hnop & Hidem).
  destruct (Hgen H1) as [Hdone _].
  destruct (Hnop H2) as (Hclear & Hhide & Hshow).
  destruct (Hshow true) as (_ & _ & _ & Hsame).
  destruct (Hsame T1 () []) as [Hcalls _].
  split; [done|]. split; [exact Hdone|].
  split; [exact (eq_trans Hclear (Hhide H3))|].
  split; [exact (Hhide H3)|]. split; [|exact Hidem].
  unfold calls, sink_calls. exact Hcalls.
Defined.

Lemma Generate_requires_mark_collections_witness :
  let st := play [ReplaceMarks 7 [P]] in
  let stale := play [ReplaceMarks 7 [P]; Clear 7; SetVisibility 7 true] in
  (m_marks fresh !! 7%N = None ∧ m_lines fresh !! 7%N = None ∧
   L ∈ [L] ∧ 1%N ∈ points L ∧ (1 ≤ 1 ≤ UpperScale)%Z ∧
   entry_at (m_marksIndex st) T1 7 = Some (mkIndexes [0%N] []) ∧
   entry_at (m_marksIndex stale) T1 7 = Some (mkIndexes [] []) ∧
   m_marks stale !! 7%N = None ∧ 7%N ∈ m_groupsVisibility stale) ∧
  dereferences_null (generate T1 (play [ReplaceLines 7 [L]; SetVisibility 7 false])) ∧
  dereferences_null (generate T1 (play [ReplaceMarks 7 [P]; Clear 7; SetVisibility 7 false])) ∧
  calls_for 7 (calls T1 stale) = [(7%N, NullMarksGeometry T1 [])].
Proof.
  intros st stale.
  assert (H1 : m_marks fresh !! 7%N = None) by done.
  assert (H2 : m_lines fresh !! 7%N = None) by done.
  assert (H3 : L ∈ [L]) by (apply elem_of_cons; by left).
  assert (H4 : 1%N ∈ points L) by (apply elem_of_cons; by left).
  assert (H5 : (1 ≤ 1 ≤ UpperScale)%Z) by (unfold UpperScale; lia).
  assert (H6 : entry_at (m_marksIndex st) T1 7 = Some (mkIndexes [0%N] []))
    by (by vm_compute).
  assert (H7 : entry_at (m_marksIndex stale) T1 7 = Some (mkIndexes [] []))
    by (by vm_compute).
  assert (H8 : m_marks stale !! 7%N = None) by (by vm_compute).
  assert (H9 : 7%N ∈ m_groupsVisibility stale).
  { refine (bool_decide_unpack _ _). by vm_compute. }
  split; [done|]. split; [|split].
  - destruct (Generate_requires_mark_collections pivot points TileOf UpperScale
                Cache fresh T1 () []) as (_ & _ & _ & Hlines & _).
    exact (Hlines 7%N [L] L 1%N 1%Z false H1 H2 H3 H4 H5).
  - destruct (Generate_requires_mark_collections pivot points TileOf UpperScale
                Cache st T1 () []) as (_ & _ & _ & _ & Hstale).
    exact (Hstale 7%N (mkIndexes [0%N] []) false H6).
  - destruct (Generate_requires_mark_collections pivot points TileOf UpperScale
                Cache stale T1 () []) as (_ & _ & Hcalls & _).
    destruct (Hcalls 7%N (mkIndexes [] []) H7 H8) as [_ Hvisible].
    exact (Hvisible H9).
Defined.
(** ** The invariants and the composition laws at concrete inputs *)

Lemma reachable_mark_positions_witness :
  let st := play [ReplaceMarks 7 [P; Q]; SetVisibility 7 true] in
  (m_marks st !! 7%N = Some [P; Q] ∧ (N.of_nat (length [P; Q]) ≤ 2 ^ 32)%N) ∧
  StronglySorted N.le (markIndexes_at (m_marksIndex st) T5 7) ∧
  1%N ∈ markIndexes_at (m_marksIndex st) T5 7 ∧
  (0%N ∉ markIndexes_at (m_marksIndex st) T5 7).
Proof.
  intros st.
  assert (H1 : m_marks st !! 7%N = Some [P; Q]) by (by vm_compute).
  assert (H2 : (N.of_nat (length [P; Q]) ≤ 2 ^ 32)%N) by (by vm_compute).
  destruct (reachable_mark_positions pivot points TileOf UpperScale sink
              [ReplaceMarks 7 [P; Q]; SetVisibility 7 true] T5 7 [P; Q] H1 H2)
    as [Hsorted Hiff].
  split; [done|]. split; [exact Hsorted|]. split.
  - apply (proj2 (Hiff 1%N)). exists 1, Q, 1%Z.
    split; [done|]. split; [done|]. split; [done|]. by vm_compute.
  - intros Hin. apply (proj1 (Hiff 0%N)) in Hin as (i & mark & z & Hi & Hx & _ & Ht).
    assert (i = 0) as -> by lia. injection Hi as <-.
    unfold T5, TileOf in Ht. injection Ht as Hcell ->. by vm_compute in Hcell.
Defined.

Lemma reachable_line_positions_witness :
  let st := play [ReplaceLines 7 [L]; Clear 5] in
  (m_lines st !! 7%N = Some [L] ∧ (N.of_nat (length [L]) ≤ 2 ^ 32)%N) ∧
  StronglySorted N.le (lineIndexes_at (m_marksIndex st) (TileOf 6 3) 7) ∧
  0%N ∈ lineIndexes_at (m_marksIndex st) (TileOf 6 3) 7.
Proof.
  intros st.
  assert (H1 : m_lines st !! 7%N = Some [L]) by (by vm_compute).
  assert (H2 : (N.of_nat (length [L]) ≤ 2 ^ 32)%N) by (by vm_compute).
  destruct (reachable_line_positions pivot points TileOf UpperScale sink
              [ReplaceLines 7 [L]; Clear 5] (TileOf 6 3) 7 [L] H1 H2)
    as [Hsorted Hiff].
  split; [done|]. split; [exact Hsorted|].
  apply (proj2 (Hiff 0%N)). exists 0, L, 3%Z, 6%N. split; [done|]. split; [done|].
  split; [done|]. split; [|done]. simpl. apply elem_of_cons. right.
  apply elem_of_cons. by left.
Defined.

Definition one_entry : gmap Tile (gmap N IndexesCollection) :=
  {[T1 := {[7%N := mkIndexes [0%N] []]}]}.

Lemma one_entry_pruned : index_pruned one_entry.
Proof.
  unfold one_entry. split.
  - intros t tg [_ <-]%lookup_singleton_Some. apply map_non_empty_singleton.
  - intros t g e (tg & Ht & Hg)%entry_at_Some.
    apply lookup_singleton_Some in Ht as [_ <-].
    apply lookup_singleton_Some in Hg as [_ <-]. by intros [? _].
Defined.

Lemma CleanIndex_twice_prunes_witness :
  index_pruned one_entry ∧ CleanIndex one_entry = one_entry.
Proof.
  split; [exact one_entry_pruned|].
  destruct (CleanIndex_twice_prunes one_entry) as (_ & _ & _ & Hfix).
  exact (Hfix one_entry_pruned).
Defined.

Lemma GetIndexesCollection_finds_or_creates_witness :
  is_Some (entry_at one_entry T1 7) ∧
  GetIndexesCollection T1 7 one_entry = one_entry.
Proof.
  assert (H1 : is_Some (entry_at one_entry T1 7)) by (by eexists).
  split; [exact H1|].
  destruct (GetIndexesCollection_finds_or_creates one_entry T1 7 T1 7)
    as (_ & Hpresent & _).
  exact (Hpresent H1).
Defined.

Lemma Generate_delivers_visible_listed_groups_witness :
  let st := play [ReplaceMarks 7 [P]; ReplaceLines 5 [L];
                  SetVisibility 7 true; SetVisibility 5 true] in
  (7%N ∈ m_groupsVisibility st ∧
   entry_at (m_marksIndex st) T1 7 = Some (mkIndexes [0%N] []) ∧
   m_marks st !! 7%N = Some [P] ∧
   5%N ∈ m_groupsVisibility st ∧
   entry_at (m_marksIndex st) T1 5 = Some (mkIndexes [] [0%N])) ∧
  (7%N, MarksGeometry T1 [P] [0%N]) ∈ calls T1 st ∧
  (5%N, NullMarksGeometry T1 []) ∈ calls T1 st.
Proof.
  intros st.
  assert (H1 : 7%N ∈ m_groupsVisibility st).
  { refine (bool_decide_unpack _ _). by vm_compute. }
  assert (H2 : entry_at (m_marksIndex st) T1 7 = Some (mkIndexes [0%N] []))
    by (by vm_compute).
  assert (H3 : m_marks st !! 7%N = Some [P]) by (by vm_compute).
  assert (H4 : 5%N ∈ m_groupsVisibility st).
  { refine (bool_decide_unpack _ _). by vm_compute. }
  assert (H5 : entry_at (m_marksIndex st) T1 5 = Some (mkIndexes [] [0%N]))
    by (by vm_compute).
  split; [done|].
  destruct (Generate_delivers_visible_listed_groups Cache st T1 ()) as (_ & Hiff & Hall).
  split.
  - exact (Hall 7%N (mkIndexes [0%N] []) [P] H2 H3 H1).
  - apply (Hiff 5%N (NullMarksGeometry T1 [])). split; [exact H4|].
    exists (mkIndexes [] [0%N]). split; [exact H5|]. by vm_compute.
Defined.

Lemma fresh_generation_safe : generation_safe fresh.
Proof. intros t h [e He]. by unfold entry_at in He. Defined.

Lemma generation_safe_preserved_witness :
  generation_safe fresh ∧
  generation_safe (play [ReplaceMarks 7 [P]]) ∧
  returns (generate T1 fresh).
Proof.
  split; [exact fresh_generation_safe|].
  destruct (generation_safe_preserved pivot points TileOf UpperScale Cache fresh
              fresh_generation_safe) as (Hret & Hmarks & _).
  split; [exact (Hmarks 7%N [P])|exact (Hret T1 () [])].
Defined.

Definition marks_history : list (@Mutation Mark Line) :=
  [ReplaceMarks 7 [P]; SetVisibility 7 true; ReplaceMarks 5 [Q]].

Definition replace_history : list (@Mutation Mark Line) :=
  [ReplaceMarks 7 [P]; ReplaceLines 7 [L]; ReplaceMarks 7 [Q]].

Lemma marks_only_history_generates_witness :
  Forall marks_only marks_history ∧ returns (generate T1 (play marks_history)).
Proof.
  assert (H1 : Forall marks_only marks_history) by (repeat constructor).
  split; [exact H1|].
  exact (marks_only_history_generates pivot points TileOf UpperScale Cache sink
           marks_history T1 () [] H1).
Defined.

Lemma index_pruned_without_Clear_witness :
  Forall (λ op, ¬ clears op) replace_history ∧
  index_pruned (m_marksIndex (play replace_history)).
Proof.
  assert (H1 : Forall (λ op, ¬ clears op) replace_history)
    by (repeat constructor; simpl; tauto).
  split; [exact H1|].
  exact (index_pruned_without_Clear pivot points TileOf UpperScale sink
           replace_history H1).
Defined.

Lemma mutation_leaves_other_groups_witness :
  let st := play [ReplaceMarks 5 [P]; SetVisibility 5 true] in
  let st' := play [ReplaceMarks 5 [P]; SetVisibility 5 true; Clear 7] in
  5%N ≠ target (Clear 7 : @Mutation Mark Line) ∧
  m_marks st' !! 5%N = m_marks st !! 5%N ∧
  (5%N ∈ m_groupsVisibility st' ↔ 5%N ∈ m_groupsVisibility st) ∧
  markIndexes_at (m_marksIndex st') T1 5 = markIndexes_at (m_marksIndex st) T1 5.
Proof.
  intros st st'.
  assert (H1 : 5%N ≠ target (Clear 7 : @Mutation Mark Line)) by (simpl; discriminate).
  destruct (mutation_leaves_other_groups pivot points TileOf UpperScale st (Clear 7) 5%N H1)
    as ((Hm & _ & Hv & Hpos) & _ & _).
  split; [exact H1|]. split; [exact Hm|]. split; [exact Hv|].
  exact (proj1 (Hpos T1)).
Defined.

Lemma SetGroupVisibility_last_call_wins_witness :
  5%N ≠ 7%N ∧
  toggle 7 ([true; false] ++ [true]) fresh = SetGroupVisibility 7 true fresh ∧
  SetGroupVisibility 7 true (SetGroupVisibility 5 false fresh) =
    SetGroupVisibility 5 false (SetGroupVisibility 7 true fresh).
Proof.
  assert (H1 : 5%N ≠ 7%N) by discriminate.
  destruct (SetGroupVisibility_last_call_wins fresh 7 [true; false] true)
    as (Hlast & _ & Hcomm).
  split; [exact H1|]. split; [exact Hlast|exact (Hcomm 5%N false H1)].
Defined.

Lemma Set_on_held_collection_witness :
  let st := play [ReplaceMarks 7 [P]] in
  let st' := play [ReplaceMarks 7 [P]; ReplaceMarks 7 [Q]] in
  m_marks st !! 7%N = Some [P] ∧
  m_marks st' = m_marks st ∧
  markIndexes_at (m_marksIndex st') T5 7 = markIndexes_at (m_marksIndex st) T5 7.
Proof.
  intros st st'.
  assert (H1 : m_marks st !! 7%N = Some [P]) by (by vm_compute).
  destruct (Set_on_held_collection pivot points TileOf UpperScale sink
              [ReplaceMarks 7 [P]] 7) as [Hmarks _].
  destruct (Hmarks [P] [Q] H1) as (Hm & _ & _ & Hpos).
  split; [exact H1|]. split; [exact Hm|exact (proj1 (Hpos T5 7%N))].
Defined.

End Scenario.
